(** * Drum-tablature normalisation: rest removal and note standardisation

    A shallow embedding of [standardize_percussion_tracks.py] and
    [clear_percussion_tracks.py], and the properties of the two passes.

    Instrument codes and string numbers are Python integers, modelled as [Z].
    Python sets of codes are modelled as duplicate-free lists; the order in
    which a set is iterated is not fixed by the source, so it is a parameter
    of the development and every result holds for every iteration order. *)

From Stdlib Require Import ZArith List Bool Lia.
Import ListNotations.
Open Scope Z_scope.

(** ** The score tree (the part of PyGuitarPro's model the passes touch) *)

(** A note: its instrument code, the string it is written on, and everything
    else the passes never look at. *)
Record Note (A : Type) : Type := mkNote {
  value : Z;
  string : Z;
  attrs : A
}.
Arguments mkNote {A} _ _ _.
Arguments value {A} _.
Arguments string {A} _.
Arguments attrs {A} _.

Record Beat (A D : Type) : Type := mkBeat {
  duration : D;
  notes : list (Note A)
}.
Arguments mkBeat {A D} _ _.
Arguments duration {A D} _.
Arguments notes {A D} _.

Record Voice (A D : Type) : Type := mkVoice { beats : list (Beat A D) }.
Arguments mkVoice {A D} _.
Arguments beats {A D} _.

Record Measure (A D : Type) : Type := mkMeasure { voices : list (Voice A D) }.
Arguments mkMeasure {A D} _.
Arguments voices {A D} _.

Record Track (A D : Type) : Type := mkTrack {
  isPercussionTrack : bool;
  measures : list (Measure A D)
}.
Arguments mkTrack {A D} _ _.
Arguments isPercussionTrack {A D} _.
Arguments measures {A D} _.

(** ** Python containers *)

(** [x in s] for a set or list of integers. *)
Definition mem (x : Z) (s : list Z) : bool := existsb (Z.eqb x) s.

(** [s.add(x)] on a set kept as a duplicate-free list. *)
Definition add (x : Z) (s : list Z) : list Z :=
  if mem x s then s else s ++ [x].

(** [s.update(l)]. *)
Definition update (s l : list Z) : list Z :=
  fold_left (fun acc x => add x acc) l s.

(** A [dict] keeps its keys in order of first insertion; assigning to a key
    that is already there replaces the value and leaves the position. *)
Fixpoint dict_set {V : Type} (k : Z) (v : V) (d : list (Z * V)) : list (Z * V) :=
  match d with
  | [] => [(k, v)]
  | (k', v') :: d' =>
      if k' =? k then (k, v) :: d' else (k', v') :: dict_set k v d'
  end.

Definition dict_values {V : Type} (d : list (Z * V)) : list V := map snd d.

(** The option monad, for the one loop that may run out of fuel. *)
Definition bind {X Y : Type} (m : option X) (f : X -> option Y) : option Y :=
  match m with
  | Some x => f x
  | None => None
  end.

Notation "x <- m ;; k" := (bind m (fun x => k))
  (at level 61, m at next level, right associativity).

Fixpoint mapM {X Y : Type} (f : X -> option Y) (l : list X) : option (list Y) :=
  match l with
  | [] => Some []
  | x :: l' => y <- f x ;; ys <- mapM f l' ;; Some (y :: ys)
  end.

(** ** standardize_percussion_tracks.py *)

Definition TOMS : list Z := [38; 40; 37; 41; 43; 45; 47; 48; 50].
Definition CYMBALS : list Z := [49; 57; 52; 55; 51; 53; 54; 56; 59; 42; 44; 46].
(** [TOMS.union(CYMBALS)]; the two tables share no code. *)
Definition HAND_NOTES : list Z := TOMS ++ CYMBALS.

Definition set_value {A : Type} (n : Note A) (v : Z) : Note A :=
  mkNote v (string n) (attrs n).

Definition set_string {A : Type} (n : Note A) (s : Z) : Note A :=
  mkNote (value n) s (attrs n).

Definition _simplify_note {A : Type} (note : Note A) : Note A :=
  if value note =? 35 then set_value note 36
  else if value note =? 40 then set_value note 38
  else if value note =? 59 then set_value note 51
  else note.

(** The two [any(...)] tests of [_place_note]. *)
Definition cymbal_on_string_1 (v : Z) (note_values : list Z) : bool :=
  existsb (fun w => mem w CYMBALS && ((w <? v) || (w =? 49))) note_values.

Definition tom_on_string_3 (v : Z) (note_values : list Z) : bool :=
  existsb (fun w => mem w TOMS && ((w <? v) || (w =? 38))) note_values.

Definition _place_note {A : Type} (note : Note A) (note_values : list Z) : Note A :=
  if value note =? 36 then set_string note 5
  else if value note =? 38 then set_string note 3
  else if value note =? 44 then set_string note 6
  else if value note =? 49 then set_string note 1
  else if mem (value note) CYMBALS then
    if cymbal_on_string_1 (value note) note_values
    then set_string note 2
    else set_string note 1
  else if mem (value note) TOMS then
    if tom_on_string_3 (value note) note_values
    then set_string note 4
    else set_string note 3
  else note.

(** The candidates of the fill loop: codes of table [tbl] that are not yet
    retained. *)
Definition candidate (tbl return_values : list Z) (v : Z) : bool :=
  mem v tbl && negb (mem v return_values).

(** [if any(c) : return_values.add(next(v for v in note_values if c))], with
    [more] the extra guard of the second attempt.  [next] cannot fail behind
    its [any]. *)
Definition try_append (more : bool) (tbl note_values return_values : list Z)
  : list Z :=
  if more && existsb (candidate tbl return_values) note_values then
    match find (candidate tbl return_values) note_values with
    | Some v => add v return_values
    | None => return_values
    end
  else return_values.

(** The [while len(return_values) < 2] loop of [_trim_note_values]; [None]
    when the fuel is used up before the loop exits. *)
Fixpoint fill_loop (fuel : nat) (note_values return_values : list Z)
  : option (list Z) :=
  if (length return_values <? 2)%nat then
    match fuel with
    | O => None
    | S fuel' =>
        let rv1 := try_append true CYMBALS note_values return_values in
        let rv2 := try_append (length rv1 <? 2)%nat TOMS note_values rv1 in
        fill_loop fuel' note_values rv2
    end
  else Some return_values.

Section Standardize.

Variable A : Type.

(** The order in which Python iterates over [set(l)]. *)
Variable set_iter : list Z -> list Z.

Definition _trim_note_values (fuel : nat) (notes : list (Note A))
  : option (list (Note A)) :=
  let note_values := set_iter (map value notes) in
  let hand_values := filter (fun v => mem v HAND_NOTES) note_values in
  return_values <-
    (if (2 <? length hand_values)%nat then
       let rv := [] in
       let rv := if mem 38 note_values then add 38 rv else rv in
       let rv := if mem 49 note_values then add 49 rv else rv in
       let rv := if (length rv <? 2)%nat && mem 57 note_values
                 then add 49 rv else rv in
       fill_loop fuel note_values rv
     else Some hand_values) ;;
  let return_values :=
    update return_values
           (filter (fun v => negb (mem v HAND_NOTES)) note_values) in
  Some (filter (fun note => mem (value note) return_values) notes).

(** [{note.value: note for note in ...}.values()] *)
Definition dedup_by_value (notes : list (Note A)) : list (Note A) :=
  dict_values (fold_left (fun d note => dict_set (value note) note d) notes []).

(** The body of the innermost loop of [standardize_track], on the notes of
    one beat.  A [Note] object is always true, so [not any(beat.notes)]
    holds exactly when the beat has no note. *)
Definition standardize_notes (fuel : nat) (ns : list (Note A))
  : option (list (Note A)) :=
  match ns with
  | [] => Some []
  | _ :: _ =>
      let ns1 := dedup_by_value (map _simplify_note ns) in
      ns2 <- _trim_note_values fuel ns1 ;;
      let note_values := set_iter (map value ns2) in
      Some (map (fun note => _place_note note note_values) ns2)
  end.

Variable D : Type.

Definition standardize_beat (fuel : nat) (beat : Beat A D)
  : option (Beat A D) :=
  ns <- standardize_notes fuel (notes beat) ;;
  Some (mkBeat (duration beat) ns).

Definition standardize_voice (fuel : nat) (voice : Voice A D)
  : option (Voice A D) :=
  bs <- mapM (standardize_beat fuel) (beats voice) ;; Some (mkVoice bs).

Definition standardize_measure (fuel : nat) (measure : Measure A D)
  : option (Measure A D) :=
  vs <- mapM (standardize_voice fuel) (voices measure) ;; Some (mkMeasure vs).

Definition standardize_track (fuel : nat) (track : Track A D)
  : option (Track A D) :=
  ms <- mapM (standardize_measure fuel) (measures track) ;;
  Some (mkTrack (isPercussionTrack track) ms).

(** [standardize]: only percussion tracks are rewritten. *)
Definition standardize_tracks (fuel : nat) (tracks : list (Track A D))
  : option (list (Track A D)) :=
  mapM (fun track =>
          if isPercussionTrack track then standardize_track fuel track
          else Some track) tracks.

End Standardize.

Arguments _trim_note_values {A} _ _ _.
Arguments dedup_by_value {A} _.
Arguments standardize_notes {A} _ _ _.
Arguments standardize_beat {A} _ {D} _ _.
Arguments standardize_voice {A} _ {D} _ _.
Arguments standardize_measure {A} _ {D} _ _.
Arguments standardize_track {A} _ {D} _ _.
Arguments standardize_tracks {A} _ {D} _ _.

(** An iteration order to run the definitions with: the codes in order of
    first insertion. *)
Fixpoint first_seen (l : list Z) : list Z :=
  match l with
  | [] => []
  | x :: l' => x :: filter (fun y => negb (y =? x)) (first_seen l')
  end.

(** ** clear_percussion_tracks.py *)

(** [last.duration = d] changes a beat object that [newbeats] already holds.
    The beats of a voice are therefore kept in a store, addressed by their
    position in [voice.beats]; [last] and the entries of [newbeats] are
    references into it. *)
Record coalescer (A D : Type) : Type := mkCoalescer {
  store : list (Beat A D);
  last : option nat;
  newbeats : list nat
}.
Arguments mkCoalescer {A D} _ _ _.
Arguments store {A D} _.
Arguments last {A D} _.
Arguments newbeats {A D} _.

(** [l[i] = x]; the references of the pass are always in range. *)
Fixpoint assign {X : Type} (i : nat) (x : X) (l : list X) : list X :=
  match l, i with
  | [], _ => []
  | _ :: l', O => x :: l'
  | y :: l', S i' => y :: assign i' x l'
  end.

Definition deref {X : Type} (l : list X) (refs : list nat) : list X :=
  flat_map (fun r => match nth_error l r with
                     | Some x => [x]
                     | None => []
                     end) refs.

Section Clear.

Variables A D : Type.

(** [guitarpro.Duration]: [d.time] in ticks, and [Duration.fromTime],
    which raises [ValueError] ([None]) when no notated duration lasts
    exactly that long. *)
Variable time : D -> Z.
Variable fromTime : Z -> option D.

Definition set_duration (beat : Beat A D) (d : D) : Beat A D :=
  mkBeat d (notes beat).

(** [if beat.notes:] *)
Definition sounding (beat : Beat A D) : bool :=
  match notes beat with
  | [] => false
  | _ :: _ => true
  end.

(** One turn of [for beat in voice.beats], on the beat at reference [r]. *)
Definition coalesce_step (st : coalescer A D) (r : nat) : coalescer A D :=
  match nth_error (store st) r with
  | None => st
  | Some beat =>
      if sounding beat then
        mkCoalescer (store st) (Some r) (newbeats st ++ [r])
      else
        match last st with
        | Some l =>
            match nth_error (store st) l with
            | None => st
            | Some lbeat =>
                match fromTime (time (duration lbeat) + time (duration beat)) with
                | Some d =>
                    mkCoalescer (assign l (set_duration lbeat d) (store st))
                                (Some l) (newbeats st)
                | None =>
                    mkCoalescer (store st) (Some r) (newbeats st ++ [r])
                end
            end
        | None => mkCoalescer (store st) None (newbeats st ++ [r])
        end
  end.

Definition coalesce_run (st : coalescer A D) (refs : list nat) : coalescer A D :=
  fold_left coalesce_step refs st.

Definition remove_rests_from_beats (bs : list (Beat A D)) : list (Beat A D) :=
  let st := coalesce_run (mkCoalescer bs None []) (seq 0 (length bs)) in
  deref (store st) (newbeats st).

Definition remove_rests_from_voice (voice : Voice A D) : Voice A D :=
  mkVoice (remove_rests_from_beats (beats voice)).

Definition remove_rests_from_measure (measure : Measure A D) : Measure A D :=
  mkMeasure (map remove_rests_from_voice (voices measure)).

Definition remove_rests_from_track (track : Track A D) : Track A D :=
  mkTrack (isPercussionTrack track)
          (map remove_rests_from_measure (measures track)).

End Clear.

Arguments set_duration {A D} _ _.
Arguments sounding {A D} _.
Arguments coalesce_step {A D} _ _ _ _.
Arguments coalesce_run {A D} _ _ _ _.
Arguments remove_rests_from_beats {A D} _ _ _.
Arguments remove_rests_from_voice {A D} _ _ _.
Arguments remove_rests_from_measure {A D} _ _ _.
Arguments remove_rests_from_track {A D} _ _ _.

(** Modelled from the spec: [guitarpro.Duration] is a collaborator outside
    the repository.  This instance follows the spec's description of it: a
    time-length (here in ticks, 960 to the quarter) that canonicalizes only
    when a plain, dotted or triplet note value lasts exactly that long. *)
Definition tick_values : list Z :=
  [3840; 1920; 960; 480; 240; 120; 60;
   5760; 2880; 1440; 720; 360; 180; 90;
   2560; 1280; 640; 320; 160; 80; 40].

Definition tick_fromTime (t : Z) : option Z :=
  if mem t tick_values then Some t else None.

Definition tick_time (d : Z) : Z := d.

(** ** Definitions used by the statements and proofs *)

Definition dict_get {V : Type} (k : Z) (d : list (Z * V)) : option V :=
  option_map snd (find (fun kv => fst kv =? k) d).

(** What one turn of the loop keeps true of the retained set. *)
Definition retained_from (nv rv0 rv : list Z) : Prop :=
  NoDup rv /\
  (forall y, In y rv0 -> In y rv) /\
  (forall y, In y rv -> In y rv0 \/ (In y nv /\ In y HAND_NOTES)).

(** One turn of the loop: the cymbal attempt, then the tom attempt. *)
Definition fill_turn (nv rv : list Z) : list Z :=
  let rv1 := try_append true CYMBALS nv rv in
  try_append (length rv1 <? 2)%nat TOMS nv rv1.

(** What the development asks of Python's set iteration: every element once,
    in some order. *)
Definition set_iter_ok (set_iter : list Z -> list Z) : Prop :=
  forall l, NoDup (set_iter l) /\ (forall x, In x (set_iter l) <-> In x l).

Definition is_hand (v : Z) : bool := mem v HAND_NOTES.

(** The dictionary of [dedup_by_value], grown from [d]. *)
Definition build {A : Type} (ns : list (Note A)) (d : list (Z * Note A)) :=
  fold_left (fun d note => dict_set (value note) note d) ns d.

(** Every entry is filed under the code of its note. *)
Definition keyed {A : Type} (d : list (Z * Note A)) : Prop :=
  forall k n, In (k, n) d -> k = value n.

(** The codes [_place_note] has a rule for. *)
Definition recognized (v : Z) : bool :=
  (v =? 36) || (v =? 38) || (v =? 44) || mem v CYMBALS || mem v TOMS.

(** The count of hand notes of a beat. *)
Definition hand_count {A : Type} (ns : list (Note A)) : nat :=
  length (filter (fun n => is_hand (value n)) ns).

(** What a standardized beat looks like: one note per code, no code that
    [_simplify_note] rewrites, at most two hand notes. *)
Definition standard {A : Type} (ns : list (Note A)) : Prop :=
  NoDup (map value ns) /\
  (hand_count ns <= 2)%nat /\
  (forall n, In n ns -> value n <> 35 /\ value n <> 40 /\ value n <> 59).

(** The number of distinct hand codes of a beat. *)
Definition distinct_hand_codes {A : Type} (ns : list (Note A)) : nat :=
  length (filter is_hand (first_seen (map value ns))).

(** The spec's reading of the tables, to compare with the source's: the
    pedal hi-hat is a category of its own and no cymbal. *)
Definition cymbal_category (v : Z) : bool :=
  mem v CYMBALS && negb (v =? 44).

(** The spec's rule for a cymbal other than 49: string 2 when a cymbal of
    lower code, or 49, is in the beat. *)
Definition second_cymbal_as_specified (v : Z) (note_values : list Z) : bool :=
  existsb (fun w => cymbal_category w && (w <? v)) note_values
  || mem 49 note_values.

(** The spec's Scenario B: the hand codes left are 49 and one tom. *)
Definition scenario_B_as_specified (codes : list Z) : Prop :=
  exists t, In t [45; 47; 41] /\ forall v, In v codes <-> v = 49 \/ v = t.

(** ** Definitions for the further properties *)

(** [remove_rests]: only percussion tracks are rewritten. *)
Definition remove_rests_from_tracks {A D : Type} (time : D -> Z)
  (fromTime : Z -> option D) (tracks : list (Track A D)) : list (Track A D) :=
  map (fun track =>
         if isPercussionTrack track
         then remove_rests_from_track time fromTime track
         else track) tracks.

(** The loop of [remove_rests_from_track] without the store: the beats put
    out so far, latest first, and whether [last] is set; [last], when set,
    is the latest of them. *)
Definition merge_step {A D : Type} (time : D -> Z) (fromTime : Z -> option D)
  (acc : list (Beat A D) * bool) (beat : Beat A D) : list (Beat A D) * bool :=
  if sounding beat then (beat :: fst acc, true)
  else if snd acc then
    match fst acc with
    | lbeat :: out =>
        match fromTime (time (duration lbeat) + time (duration beat)) with
        | Some d => (set_duration lbeat d :: out, true)
        | None => (beat :: lbeat :: out, true)
        end
    | [] => acc
    end
  else (beat :: fst acc, false).

Definition merge_rests {A D : Type} (time : D -> Z) (fromTime : Z -> option D)
  (bs : list (Beat A D)) : list (Beat A D) :=
  rev (fst (fold_left (merge_step time fromTime) bs ([], false))).

(** How a state of the loop, after the first [k] beats of [bs], and an
    accumulator of [merge_step] stand for each other. *)
Definition represents {A D : Type} (bs : list (Beat A D)) (k : nat)
  (st : coalescer A D) (acc : list (Beat A D) * bool) : Prop :=
  length (store st) = length bs /\
  (forall r, (k <= r)%nat -> nth_error (store st) r = nth_error bs r) /\
  Forall (fun r => (r < k)%nat) (newbeats st) /\
  NoDup (newbeats st) /\
  deref (store st) (newbeats st) = rev (fst acc) /\
  match last st with
  | Some l => snd acc = true /\ exists p, newbeats st = p ++ [l]
  | None => snd acc = false
  end.

(** The time a sequence of beats lasts. *)
Definition total_time {A D : Type} (time : D -> Z) (bs : list (Beat A D)) : Z :=
  fold_right (fun beat t => time (duration beat) + t) 0 bs.

(** The accumulator of [merge_step] is well formed: [last] set means a beat
    was put out. *)
Definition acc_ok {A D : Type} (acc : list (Beat A D) * bool) : Prop :=
  snd acc = true -> fst acc <> [].

(** The durations of a track, measure by measure and voice by voice. *)
Definition track_durations {A D : Type} (track : Track A D) : list (list (list D)) :=
  map (fun measure => map (fun voice => map duration (beats voice))
                          (voices measure)) (measures track).

(** Which beats of a track sound. *)
Definition track_sounding {A D : Type} (track : Track A D) : list (list (list bool)) :=
  map (fun measure => map (fun voice => map sounding (beats voice))
                          (voices measure)) (measures track).

(** The duration a beat reaches when the silent beats [rs] are merged into
    it one after the other; [None] when one of the sums has no notated
    duration. *)
Fixpoint extend {A D : Type} (time : D -> Z) (fromTime : Z -> option D)
  (d : D) (rs : list (Beat A D)) : option D :=
  match rs with
  | [] => Some d
  | r :: rs' =>
      match fromTime (time d + time (duration r)) with
      | Some d' => extend time fromTime d' rs'
      | None => None
      end
  end.

(** The codes retained before the fill loop starts (lines 119 to 125 of
    [_trim_note_values]), from the codes of the beat. *)
Definition priority_codes (vs : list Z) : list Z :=
  let rv := [] in
  let rv := if mem 38 vs then add 38 rv else rv in
  let rv := if mem 49 vs then add 49 rv else rv in
  if (length rv <? 2)%nat && mem 57 vs then add 49 rv else rv.

Ltac nodup_list :=
  repeat (constructor; [simpl; intuition discriminate |]); constructor.

(** ** Sets as duplicate-free lists *)

Lemma mem_In (x : Z) (s : list Z) : mem x s = true <-> In x s.
Proof.
  unfold mem. rewrite existsb_exists. split.
  - intros [y [Hy Heq]]. apply Z.eqb_eq in Heq. now subst.
  - intros H. exists x. split; [assumption | apply Z.eqb_refl].
Qed.

Lemma mem_not_In (x : Z) (s : list Z) : mem x s = false <-> ~ In x s.
Proof.
  rewrite <- mem_In. destruct (mem x s); split; congruence.
Qed.

Lemma add_fresh (x : Z) (s : list Z) : ~ In x s -> add x s = s ++ [x].
Proof.
  intros H. unfold add. apply mem_not_In in H. now rewrite H.
Qed.

Lemma In_add (x y : Z) (s : list Z) : In y (add x s) <-> y = x \/ In y s.
Proof.
  unfold add. destruct (mem x s) eqn:E.
  - apply mem_In in E. split; [tauto | intros [-> | H]; assumption].
  - rewrite in_app_iff. simpl. intuition congruence.
Qed.

Lemma NoDup_snoc (x : Z) (s : list Z) : NoDup s -> ~ In x s -> NoDup (s ++ [x]).
Proof.
  intros Hs Hx. apply NoDup_rev in Hs.
  rewrite <- (rev_involutive (s ++ [x])). apply NoDup_rev.
  rewrite rev_app_distr. simpl. constructor; [| assumption].
  now rewrite <- in_rev.
Qed.

Lemma NoDup_add (x : Z) (s : list Z) : NoDup s -> NoDup (add x s).
Proof.
  intros Hs. unfold add. destruct (mem x s) eqn:E; [assumption |].
  apply NoDup_snoc; [assumption | now apply mem_not_In].
Qed.

Lemma In_update (s l : list Z) (y : Z) :
  In y (update s l) <-> In y s \/ In y l.
Proof.
  unfold update. revert s. induction l as [| x l IH]; intros s; simpl.
  - tauto.
  - rewrite IH, In_add. intuition congruence.
Qed.

(** Two distinct codes cannot both sit in a set of at most one element. *)
Lemma fresh_code (hv rv : list Z) :
  NoDup hv -> (2 <= length hv)%nat -> (length rv <= 1)%nat ->
  exists c, In c hv /\ ~ In c rv.
Proof.
  intros Hnd Hlen Hrv.
  destruct hv as [| a [| b hv]]; simpl in Hlen; try lia.
  destruct rv as [| r [| ? ?]]; simpl in Hrv; try lia.
  - exists a. simpl. tauto.
  - inversion Hnd as [| ? ? Hab _]; subst.
    destruct (Z.eq_dec a r) as [-> | Har].
    + exists b. simpl. split; [tauto |].
      intros [E | []]. apply Hab. left. congruence.
    + exists a. simpl. split; [tauto |]. intros [E | []]. congruence.
Qed.

(** ** The fill loop of [_trim_note_values] *)

(** An attempt either leaves the set alone, or appends a candidate. *)
Lemma try_append_cases (more : bool) (tbl nv rv : list Z) :
  (try_append more tbl nv rv = rv /\
   (more = false \/ existsb (candidate tbl rv) nv = false)) \/
  (exists v, more = true /\ In v nv /\ In v tbl /\ ~ In v rv /\
             try_append more tbl nv rv = rv ++ [v]).
Proof.
  unfold try_append. destruct more; simpl; [| left; tauto].
  destruct (existsb (candidate tbl rv) nv) eqn:E; [| left; tauto].
  destruct (find (candidate tbl rv) nv) as [v |] eqn:F.
  - apply find_some in F. destruct F as [Hin Hc].
    unfold candidate in Hc. apply andb_true_iff in Hc. destruct Hc as [Ht Hr].
    apply mem_In in Ht. apply negb_true_iff, mem_not_In in Hr.
    right. exists v. repeat split; try assumption. now apply add_fresh.
  - apply existsb_exists in E. destruct E as [v [Hin Hc]].
    apply (find_none _ _ F) in Hin. congruence.
Qed.

Lemma candidate_found (tbl nv rv : list Z) (c : Z) :
  In c nv -> In c tbl -> ~ In c rv -> existsb (candidate tbl rv) nv = true.
Proof.
  intros Hn Ht Hr. apply existsb_exists. exists c. split; [assumption |].
  unfold candidate. apply andb_true_iff. split.
  - now apply mem_In.
  - now apply negb_true_iff, mem_not_In.
Qed.

Lemma retained_from_refl (nv rv : list Z) : NoDup rv -> retained_from nv rv rv.
Proof. intros H. repeat split; auto. Qed.

Lemma retained_from_trans (nv a b c : list Z) :
  retained_from nv a b -> retained_from nv b c -> retained_from nv a c.
Proof.
  intros (_ & Hab & Hba) (Hc & Hbc & Hcb). repeat split; auto.
  intros y Hy. destruct (Hcb y Hy) as [H | H]; auto.
Qed.

Lemma try_append_retained (more : bool) (tbl nv rv : list Z) :
  incl tbl HAND_NOTES -> NoDup rv ->
  retained_from nv rv (try_append more tbl nv rv).
Proof.
  intros Htbl Hnd.
  destruct (try_append_cases more tbl nv rv)
    as [[-> _] | (v & _ & Hn & Ht & Hr & ->)].
  - now apply retained_from_refl.
  - repeat split.
    + now apply NoDup_snoc.
    + intros y Hy. apply in_app_iff. now left.
    + intros y Hy. apply in_app_iff in Hy. destruct Hy as [Hy | [<- | []]]; auto.
Qed.

Lemma TOMS_hand : incl TOMS HAND_NOTES.
Proof. intros x Hx. unfold HAND_NOTES. apply in_app_iff. now left. Qed.

Lemma CYMBALS_hand : incl CYMBALS HAND_NOTES.
Proof. intros x Hx. unfold HAND_NOTES. apply in_app_iff. now right. Qed.

Lemma fill_turn_retained (nv rv : list Z) :
  NoDup rv -> retained_from nv rv (fill_turn nv rv).
Proof.
  intros Hnd. unfold fill_turn.
  eapply retained_from_trans.
  - apply try_append_retained; [apply CYMBALS_hand | assumption].
  - apply try_append_retained; [apply TOMS_hand |].
    apply try_append_retained; [apply CYMBALS_hand | assumption].
Qed.

(** With two hand codes in the beat, a turn that starts below two always
    gains a code, and never goes beyond two. *)
Lemma fill_turn_progress (nv rv : list Z) :
  NoDup (filter (fun v => mem v HAND_NOTES) nv) ->
  (2 <= length (filter (fun v => mem v HAND_NOTES) nv))%nat ->
  (length rv < 2)%nat ->
  (length rv < length (fill_turn nv rv) <= 2)%nat.
Proof.
  intros Hnd Hlen Hrv.
  destruct (fresh_code _ rv Hnd Hlen) as (c & Hc & Hfresh); [lia |].
  apply filter_In in Hc. destruct Hc as [Hcn Hch].
  apply mem_In in Hch. unfold HAND_NOTES in Hch. apply in_app_iff in Hch.
  unfold fill_turn.
  destruct (try_append_cases true CYMBALS nv rv)
    as [[E1 Hno] | (v & _ & _ & _ & _ & E1)]; rewrite E1.
  - destruct Hno as [Hno | Hno]; [discriminate |].
    destruct Hch as [Hct | Hcc].
    + assert (Hlt : (length rv <? 2)%nat = true) by now apply Nat.ltb_lt.
      rewrite Hlt.
      destruct (try_append_cases true TOMS nv rv)
        as [[_ [Hf | Hf]] | (w & _ & _ & _ & _ & E2)].
      * discriminate.
      * rewrite (candidate_found TOMS nv rv c) in Hf by assumption. discriminate.
      * rewrite E2, length_app. simpl. lia.
    + rewrite (candidate_found CYMBALS nv rv c) in Hno by assumption.
      discriminate.
  - destruct (try_append_cases (length (rv ++ [v]) <? 2)%nat TOMS nv (rv ++ [v]))
      as [[E2 _] | (w & Hm & _ & _ & _ & E2)]; rewrite E2.
    + rewrite length_app. simpl. lia.
    + apply Nat.ltb_lt in Hm. rewrite !length_app in *. simpl in *. lia.
Qed.

Lemma fill_loop_unfold (fuel : nat) (nv rv : list Z) :
  fill_loop fuel nv rv =
  if (length rv <? 2)%nat then
    match fuel with
    | O => None
    | S fuel' => fill_loop fuel' nv (fill_turn nv rv)
    end
  else Some rv.
Proof. destruct fuel; reflexivity. Qed.

(** The loop ends, within two turns, on exactly two retained codes. *)
Lemma fill_loop_total (nv : list Z) :
  NoDup (filter (fun v => mem v HAND_NOTES) nv) ->
  (2 <= length (filter (fun v => mem v HAND_NOTES) nv))%nat ->
  forall (fuel : nat) (rv : list Z),
    NoDup rv -> (length rv <= 2)%nat -> (2 <= length rv + fuel)%nat ->
    exists r, fill_loop fuel nv rv = Some r /\ length r = 2%nat /\
              retained_from nv rv r.
Proof.
  intros Hnd Hlen. induction fuel as [| fuel IH]; intros rv Hrv Hle Hfuel;
    rewrite fill_loop_unfold.
  - assert (E : (length rv <? 2)%nat = false) by (apply Nat.ltb_ge; lia).
    rewrite E. exists rv. repeat split; auto. lia.
  - destruct (length rv <? 2)%nat eqn:E.
    + apply Nat.ltb_lt in E.
      pose proof (fill_turn_progress nv rv Hnd Hlen E) as Hp.
      pose proof (fill_turn_retained nv rv Hrv) as Hr.
      destruct (IH (fill_turn nv rv)) as (r & Hr1 & Hr2 & Hr3);
        [apply Hr | lia | lia |].
      exists r. repeat split; try assumption.
      * destruct Hr3 as (H & _). exact H.
      * intros y Hy. apply Hr3. now apply Hr.
      * intros y Hy. eapply retained_from_trans; eauto.
    + apply Nat.ltb_ge in E. exists rv. repeat split; auto. lia.
Qed.

(** ** Trimming *)

Lemma mem_update (s l : list Z) (y : Z) :
  mem y (update s l) = mem y s || mem y l.
Proof.
  apply eq_true_iff_eq. rewrite orb_true_iff, !mem_In. apply In_update.
Qed.

Lemma mem_filter (p : Z -> bool) (l : list Z) (y : Z) :
  mem y (filter p l) = p y && mem y l.
Proof.
  apply eq_true_iff_eq. rewrite andb_true_iff, !mem_In, filter_In. tauto.
Qed.

Lemma mem_iter (set_iter : list Z -> list Z) (l : list Z) (x : Z) :
  set_iter_ok set_iter -> mem x (set_iter l) = mem x l.
Proof.
  intros Hok. destruct (mem x l) eqn:E.
  - apply mem_In. apply (proj2 (Hok l)). now apply mem_In.
  - apply mem_not_In. intros H. apply (proj2 (Hok l)) in H.
    apply mem_In in H. congruence.
Qed.

Section TrimFacts.

Variable A : Type.
Variable set_iter : list Z -> list Z.
Hypothesis set_iter_spec : set_iter_ok set_iter.

(** The retained set of a trim: [hv] is its hand part. *)
Lemma trim_spec (fuel : nat) (ns : list (Note A)) :
  (2 <= fuel)%nat ->
  exists rv hv,
    _trim_note_values set_iter fuel ns
      = Some (filter (fun note => mem (value note) rv) ns) /\
    NoDup hv /\ (length hv <= 2)%nat /\
    (forall y, In y rv -> In y HAND_NOTES -> In y hv) /\
    (forall y, In y (map value ns) -> y = 38 \/ ~ In y HAND_NOTES -> In y rv) /\
    ((length (filter is_hand (set_iter (map value ns))) <= 2)%nat ->
     forall y, In y (map value ns) -> In y rv).
Proof.
  intros Hfuel. unfold _trim_note_values. cbv zeta.
  fold is_hand.
  set (nv := set_iter (map value ns)).
  assert (Hnd : NoDup (filter is_hand nv)) by (apply NoDup_filter, set_iter_spec).
  assert (Hnon : forall rv0 y,
             In y (update rv0 (filter (fun v => negb (is_hand v)) nv)) ->
             In y HAND_NOTES -> In y rv0).
  { intros rv0 y Hy Hh. apply In_update in Hy. destruct Hy as [Hy | Hy]; auto.
    apply filter_In in Hy. destruct Hy as [_ Hy].
    apply negb_true_iff, mem_not_In in Hy. contradiction. }
  assert (Hkeep : forall rv0 y, In y (map value ns) -> ~ In y HAND_NOTES ->
             In y (update rv0 (filter (fun v => negb (is_hand v)) nv))).
  { intros rv0 y Hy Hh. apply In_update. right. apply filter_In. split.
    - now apply set_iter_spec.
    - now apply negb_true_iff, mem_not_In. }
  destruct (2 <? length (filter is_hand nv))%nat eqn:Hbig.
  - apply Nat.ltb_lt in Hbig.
    match goal with
    | |- context [fill_loop _ _ ?r] => remember r as rv0 eqn:Hrv0
    end.
    assert (H0 : NoDup rv0 /\ (length rv0 <= 2)%nat /\
                 (mem 38 nv = true -> In 38 rv0)).
    { subst rv0. destruct (mem 38 nv), (mem 49 nv), (mem 57 nv); simpl;
        (split; [nodup_list | split; [lia | auto; discriminate]]). }
    destruct H0 as (H0nd & H0len & H038).
    destruct (fill_loop_total nv Hnd ltac:(unfold is_hand in *; lia)
                fuel rv0 H0nd H0len ltac:(lia))
      as (r & Hr & Hrlen & Hrnd & Hrin & _).
    rewrite Hr. simpl.
    exists (update r (filter (fun v => negb (is_hand v)) nv)), r.
    split; [reflexivity |]. split; [assumption |]. split; [lia |].
    split; [apply Hnon |]. split.
    + intros y Hy [-> | Hy'].
      * apply In_update. left. apply Hrin, H038.
        now apply mem_In, set_iter_spec.
      * now apply Hkeep.
    + intros Hsmall. fold nv in Hsmall. exfalso. lia.
  - apply Nat.ltb_ge in Hbig. simpl.
    exists (update (filter is_hand nv) (filter (fun v => negb (is_hand v)) nv)),
           (filter is_hand nv).
    split; [reflexivity |]. split; [assumption |]. split; [assumption |].
    split; [apply Hnon |].
    assert (Hall : forall y, In y (map value ns) ->
               In y (update (filter is_hand nv)
                            (filter (fun v => negb (is_hand v)) nv))).
    { intros y Hy. apply In_update. rewrite !filter_In.
      apply set_iter_spec in Hy. fold nv in Hy.
      destruct (is_hand y); simpl; tauto. }
    split; intros; now apply Hall.
Qed.

(** A trim of a beat over the cap: the two hand codes it retains.  Each is a
    hand code of the beat, except 49 when it stands in for 57. *)
Lemma trim_over_cap (fuel : nat) (ns : list (Note A)) :
  (2 <= fuel)%nat ->
  (2 < length (filter is_hand (set_iter (map value ns))))%nat ->
  exists r,
    _trim_note_values set_iter fuel ns
      = Some (filter (fun note => mem (value note) r
                                  || negb (is_hand (value note))) ns) /\
    NoDup r /\ length r = 2%nat /\
    (forall y, In y r ->
       (In y (map value ns) /\ In y HAND_NOTES) \/
       (y = 49 /\ In 57 (map value ns) /\ ~ In 49 (map value ns))) /\
    (In 38 (map value ns) -> In 38 r) /\
    (In 49 (map value ns) -> In 49 r).
Proof.
  intros Hfuel Hbig. unfold _trim_note_values. cbv zeta. fold is_hand.
  set (nv := set_iter (map value ns)) in *.
  assert (Hnd : NoDup (filter is_hand nv)) by (apply NoDup_filter, set_iter_spec).
  assert (B : (2 <? length (filter is_hand nv))%nat = true)
    by now apply Nat.ltb_lt.
  rewrite B.
  match goal with
  | |- context [fill_loop _ _ ?r] => remember r as rv0 eqn:Hrv0
  end.
  assert (Hmem : forall y, mem y nv = mem y (map value ns))
    by (intros y; now apply mem_iter).
  assert (Hprio : (In 38 (map value ns) -> In 38 rv0) /\
                  (In 49 (map value ns) -> In 49 rv0)).
  { subst rv0. rewrite !Hmem.
    destruct (mem 38 (map value ns)) eqn:E38, (mem 49 (map value ns)) eqn:E49,
             (mem 57 (map value ns)); simpl;
      split; intros H; apply mem_In in H; try congruence; tauto. }
  assert (H0 : NoDup rv0 /\ (length rv0 <= 2)%nat /\
               forall y, In y rv0 ->
                 (In y (map value ns) /\ In y HAND_NOTES) \/
                 (y = 49 /\ In 57 (map value ns) /\ ~ In 49 (map value ns))).
  { subst rv0.
    destruct (mem 38 nv) eqn:E38, (mem 49 nv) eqn:E49, (mem 57 nv) eqn:E57;
      rewrite Hmem in E38, E49, E57;
      (split; [simpl; nodup_list | split; [simpl; lia |]]);
      intros y Hy; simpl in Hy;
      repeat destruct Hy as [<- | Hy]; try contradiction;
      first [ left; split; [now apply mem_In | apply mem_In; reflexivity]
            | right; split; [reflexivity |];
              split; [now apply mem_In | now apply mem_not_In] ]. }
  destruct H0 as (H0nd & H0len & H0in).
  destruct (fill_loop_total nv Hnd ltac:(unfold is_hand in *; lia)
              fuel rv0 H0nd H0len ltac:(lia))
    as (r & Hr & Hrlen & Hrnd & Hrin & Hrfrom).
  rewrite Hr. simpl. exists r.
  split; [| split; [assumption | split; [assumption | split]]].
  - f_equal. apply filter_ext_in. intros n Hn.
    rewrite mem_update, mem_filter, Hmem.
    assert (Hv : mem (value n) (map value ns) = true)
      by (apply mem_In; now apply in_map).
    now rewrite Hv, andb_true_r.
  - intros y Hy. destruct (Hrfrom y Hy) as [H | [H Hh]]; [now apply H0in |].
    left. split; [| assumption]. now apply set_iter_spec.
  - destruct Hprio as [H38 H49]. split; intros H; apply Hrin; auto.
Qed.

End TrimFacts.

(** ** The dictionary that removes duplicate codes *)

Lemma dict_get_set {V : Type} (k k' : Z) (v : V) (d : list (Z * V)) :
  dict_get k (dict_set k' v d) = if k' =? k then Some v else dict_get k d.
Proof.
  unfold dict_get. induction d as [| [k0 v0] d IH]; simpl.
  - destruct (k' =? k); reflexivity.
  - destruct (k0 =? k') eqn:E0; simpl.
    + apply Z.eqb_eq in E0. subst k0. destruct (k' =? k); reflexivity.
    + destruct (k0 =? k) eqn:E1.
      * apply Z.eqb_eq in E1. subst k0. now rewrite Z.eqb_sym, E0.
      * exact IH.
Qed.

Lemma dict_set_keys {V : Type} (k : Z) (v : V) (d : list (Z * V)) :
  map fst (dict_set k v d) = add k (map fst d).
Proof.
  unfold add, mem. induction d as [| [k0 v0] d IH]; simpl.
  - reflexivity.
  - rewrite (Z.eqb_sym k k0). destruct (k0 =? k) eqn:E; simpl.
    + apply Z.eqb_eq in E. now subst.
    + rewrite IH. now destruct (existsb (Z.eqb k) (map fst d)).
Qed.

Lemma dict_set_fresh {V : Type} (k : Z) (v : V) (d : list (Z * V)) :
  ~ In k (map fst d) -> dict_set k v d = d ++ [(k, v)].
Proof.
  induction d as [| [k0 v0] d IH]; simpl; intros H.
  - reflexivity.
  - destruct (k0 =? k) eqn:E.
    + apply Z.eqb_eq in E. tauto.
    + rewrite IH; tauto.
Qed.

Lemma find_snoc {X : Type} (p : X -> bool) (l : list X) (x : X) :
  find p (l ++ [x]) =
  match find p l with
  | Some y => Some y
  | None => if p x then Some x else None
  end.
Proof.
  induction l as [| y l IH]; simpl.
  - reflexivity.
  - now destruct (p y).
Qed.

Section Dedup.

Variable A : Type.

Lemma keyed_set (n : Note A) (d : list (Z * Note A)) :
  keyed d -> keyed (dict_set (value n) n d).
Proof.
  unfold keyed. induction d as [| [k0 n0] d IH]; simpl; intros Hd k m Hin.
  - destruct Hin as [E | []]. now inversion E.
  - destruct (k0 =? value n); destruct Hin as [E | Hin].
    + now inversion E.
    + apply Hd. now right.
    + apply Hd. now left.
    + apply IH; [| assumption]. intros k1 n1 H1. apply Hd. now right.
Qed.

Lemma keyed_build (ns : list (Note A)) (d : list (Z * Note A)) :
  keyed d -> keyed (build ns d).
Proof.
  revert d. induction ns as [| n ns IH]; simpl; intros d Hd.
  - exact Hd.
  - apply IH, keyed_set, Hd.
Qed.

Lemma keyed_values (d : list (Z * Note A)) :
  keyed d -> map value (dict_values d) = map fst d.
Proof.
  unfold dict_values. induction d as [| [k n] d IH]; simpl; intros Hd.
  - reflexivity.
  - rewrite IH.
    + f_equal. symmetry. apply Hd. now left.
    + intros k1 n1 H1. apply Hd. now right.
Qed.

Lemma keyed_find (k : Z) (d : list (Z * Note A)) :
  keyed d ->
  find (fun n => value n =? k) (dict_values d) = dict_get k d.
Proof.
  unfold dict_values, dict_get.
  induction d as [| [k0 n0] d IH]; simpl; intros Hd.
  - reflexivity.
  - rewrite <- (Hd k0 n0) by now left.
    destruct (k0 =? k); [reflexivity |].
    apply IH. intros k1 n1 H1. apply Hd. now right.
Qed.

Lemma build_keys (ns : list (Note A)) (d : list (Z * Note A)) :
  map fst (build ns d) = update (map fst d) (map value ns).
Proof.
  unfold update. revert d. induction ns as [| n ns IH]; simpl; intros d.
  - reflexivity.
  - now rewrite IH, dict_set_keys.
Qed.

(** A code ends up bound to the last note that carries it. *)
Lemma build_get (k : Z) (ns : list (Note A)) (d : list (Z * Note A)) :
  dict_get k (build ns d) =
  match find (fun n => value n =? k) (rev ns) with
  | Some n => Some n
  | None => dict_get k d
  end.
Proof.
  revert d. induction ns as [| n ns IH]; simpl; intros d.
  - reflexivity.
  - rewrite IH, find_snoc, dict_get_set.
    destruct (find (fun n0 => value n0 =? k) (rev ns)); [reflexivity |].
    now destruct (value n =? k).
Qed.

Lemma build_distinct (ns : list (Note A)) (d : list (Z * Note A)) :
  NoDup (map fst d ++ map value ns) ->
  build ns d = d ++ map (fun n => (value n, n)) ns.
Proof.
  revert d. induction ns as [| n ns IH]; simpl; intros d Hnd.
  - now rewrite app_nil_r.
  - assert (Hfresh : ~ In (value n) (map fst d)).
    { intros Hin. apply NoDup_remove_2 in Hnd. apply Hnd.
      apply in_app_iff. now left. }
    rewrite dict_set_fresh by assumption.
    rewrite IH.
    + now rewrite <- app_assoc.
    + rewrite map_app. simpl. now rewrite <- app_assoc.
Qed.

Lemma dedup_values (ns : list (Note A)) :
  map value (dedup_by_value ns) = update [] (map value ns).
Proof.
  unfold dedup_by_value. fold (build ns []).
  rewrite keyed_values, build_keys; [reflexivity |].
  apply keyed_build. intros k n [].
Qed.

Lemma update_NoDup (s l : list Z) : NoDup s -> NoDup (update s l).
Proof.
  unfold update. revert s. induction l as [| x l IH]; simpl; intros s Hs.
  - exact Hs.
  - apply IH, NoDup_add, Hs.
Qed.

Lemma dedup_NoDup (ns : list (Note A)) : NoDup (map value (dedup_by_value ns)).
Proof. rewrite dedup_values. apply update_NoDup. constructor. Qed.

Lemma dedup_In_value (ns : list (Note A)) (v : Z) :
  In v (map value (dedup_by_value ns)) <-> In v (map value ns).
Proof. rewrite dedup_values, In_update. simpl. tauto. Qed.

Lemma dedup_find (ns : list (Note A)) (k : Z) :
  find (fun n => value n =? k) (dedup_by_value ns) =
  find (fun n => value n =? k) (rev ns).
Proof.
  unfold dedup_by_value. fold (build ns []).
  rewrite keyed_find, build_get.
  - now destruct (find (fun n => value n =? k) (rev ns)).
  - apply keyed_build. intros k0 n [].
Qed.

(** Nothing to merge: the beat keeps its notes, in their order. *)
Lemma dedup_distinct (ns : list (Note A)) :
  NoDup (map value ns) -> dedup_by_value ns = ns.
Proof.
  intros Hnd. unfold dedup_by_value. fold (build ns []).
  rewrite build_distinct by exact Hnd. simpl.
  unfold dict_values. rewrite map_map. simpl. apply map_id.
Qed.

End Dedup.

(** ** Simplifying and placing *)

Lemma simplify_value {A : Type} (n : Note A) :
  value (_simplify_note n) <> 35 /\ value (_simplify_note n) <> 40 /\
  value (_simplify_note n) <> 59.
Proof.
  unfold _simplify_note.
  destruct (value n =? 35) eqn:E1; [simpl; lia |].
  destruct (value n =? 40) eqn:E2; [simpl; lia |].
  destruct (value n =? 59) eqn:E3; [simpl; lia |].
  apply Z.eqb_neq in E1, E2, E3. tauto.
Qed.

Lemma simplify_canonical {A : Type} (n : Note A) :
  value n <> 35 -> value n <> 40 -> value n <> 59 -> _simplify_note n = n.
Proof.
  intros H1 H2 H3. unfold _simplify_note.
  apply Z.eqb_neq in H1, H2, H3. now rewrite H1, H2, H3.
Qed.


Lemma place_value {A : Type} (n : Note A) (nv : list Z) :
  value (_place_note n nv) = value n.
Proof.
  unfold _place_note.
  repeat match goal with
         | |- context [if ?b then _ else _] => destruct b
         end; reflexivity.
Qed.


Lemma set_string_value {A : Type} (n : Note A) (s : Z) :
  value (set_string n s) = value n.
Proof. reflexivity. Qed.

(** Placing reads the code and the beat's code set only. *)
Lemma place_idem {A : Type} (n : Note A) (nv : list Z) :
  _place_note (_place_note n nv) nv = _place_note n nv.
Proof.
  unfold _place_note at 2.
  repeat match goal with
         | |- context [if ?b then _ else _] =>
             let E := fresh "E" in destruct b eqn:E
         end;
    unfold _place_note; rewrite ?set_string_value;
    repeat match goal with
           | H : ?b = _ |- context [?b] => rewrite H
           end; reflexivity.
Qed.

Lemma cymbal_on_string_1_iff (v : Z) (nv : list Z) :
  cymbal_on_string_1 v nv = true <->
  exists w, In w nv /\ In w CYMBALS /\ (w < v \/ w = 49).
Proof.
  unfold cymbal_on_string_1. rewrite existsb_exists.
  split; intros (w & Hw & H); exists w; split; try assumption.
  - apply andb_true_iff in H. destruct H as [Hc H].
    apply mem_In in Hc. apply orb_true_iff in H.
    rewrite Z.ltb_lt, Z.eqb_eq in H. tauto.
  - destruct H as [Hc H]. apply andb_true_iff. split.
    + now apply mem_In.
    + apply orb_true_iff. now rewrite Z.ltb_lt, Z.eqb_eq.
Qed.

Lemma tom_on_string_3_iff (v : Z) (nv : list Z) :
  tom_on_string_3 v nv = true <->
  exists w, In w nv /\ In w TOMS /\ (w < v \/ w = 38).
Proof.
  unfold tom_on_string_3. rewrite existsb_exists.
  split; intros (w & Hw & H); exists w; split; try assumption.
  - apply andb_true_iff in H. destruct H as [Hc H].
    apply mem_In in Hc. apply orb_true_iff in H.
    rewrite Z.ltb_lt, Z.eqb_eq in H. tauto.
  - destruct H as [Hc H]. apply andb_true_iff. split.
    + now apply mem_In.
    + apply orb_true_iff. now rewrite Z.ltb_lt, Z.eqb_eq.
Qed.

(** The string of a recognized note, by the rule that set it. *)
Lemma place_lane {A : Type} (n : Note A) (nv : list Z) :
  recognized (value n) = true ->
  (value n = 36 /\ string (_place_note n nv) = 5) \/
  (value n = 44 /\ string (_place_note n nv) = 6) \/
  (In (value n) CYMBALS /\ value n <> 44 /\
   ((string (_place_note n nv) = 1 /\
     (value n = 49 \/ cymbal_on_string_1 (value n) nv = false)) \/
    (string (_place_note n nv) = 2 /\ value n <> 49 /\
     cymbal_on_string_1 (value n) nv = true))) \/
  (In (value n) TOMS /\
   ((string (_place_note n nv) = 3 /\
     (value n = 38 \/ tom_on_string_3 (value n) nv = false)) \/
    (string (_place_note n nv) = 4 /\ value n <> 38 /\
     tom_on_string_3 (value n) nv = true))).
Proof.
  unfold recognized, _place_note. intros Hrec.
  destruct (value n =? 36) eqn:E36.
  { apply Z.eqb_eq in E36. left. now split. }
  destruct (value n =? 38) eqn:E38.
  { apply Z.eqb_eq in E38. right. right. right. split.
    - rewrite E38. simpl. tauto.
    - left. split; [reflexivity | now left]. }
  destruct (value n =? 44) eqn:E44.
  { apply Z.eqb_eq in E44. right. left. now split. }
  apply Z.eqb_neq in E36, E38, E44.
  destruct (value n =? 49) eqn:E49.
  { apply Z.eqb_eq in E49. right. right. left. split; [| split; [assumption |]].
    - rewrite E49. simpl. tauto.
    - left. split; [reflexivity | now left]. }
  apply Z.eqb_neq in E49.
  destruct (mem (value n) CYMBALS) eqn:Ec.
  { apply mem_In in Ec. right. right. left.
    split; [assumption | split; [assumption |]].
    destruct (cymbal_on_string_1 (value n) nv); simpl; [right | left]; auto. }
  destruct (mem (value n) TOMS) eqn:Et; [| discriminate].
  apply mem_In in Et. right. right. right. split; [assumption |].
  destruct (tom_on_string_3 (value n) nv); simpl; [right | left]; auto.
Qed.

(** ** Standardized beats *)

Lemma NoDup_map_filter {X Y : Type} (f : X -> Y) (p : X -> bool) (l : list X) :
  NoDup (map f l) -> NoDup (map f (filter p l)).
Proof.
  induction l as [| x l IH]; simpl; intros H.
  - constructor.
  - inversion H as [| ? ? Hx Hl]; subst.
    destruct (p x); simpl; [| now apply IH].
    constructor; [| now apply IH].
    intros Hin. apply Hx. apply in_map_iff in Hin.
    destruct Hin as (y & Hy & Hin). apply filter_In in Hin.
    apply in_map_iff. exists y. tauto.
Qed.

Lemma filter_map_length {X Y : Type} (f : X -> Y) (p : Y -> bool) (l : list X) :
  length (filter p (map f l)) = length (filter (fun x => p (f x)) l).
Proof.
  induction l as [| x l IH]; simpl; [reflexivity |].
  destruct (p (f x)); simpl; now rewrite IH.
Qed.

Lemma same_elements_filter_length (p : Z -> bool) (l l' : list Z) :
  NoDup l -> NoDup l' -> (forall x, In x l <-> In x l') ->
  length (filter p l) = length (filter p l').
Proof.
  intros Hl Hl' Hsame. apply Nat.le_antisymm;
    (apply NoDup_incl_length; [now apply NoDup_filter |]);
    intros x Hx; apply filter_In in Hx; apply filter_In;
    split; try tauto; apply Hsame; tauto.
Qed.

(** With at most two hand codes among distinct codes, a third hand code is
    one of the two. *)
Lemma hand_cap_third (vs : list Z) (a b c : Z) :
  NoDup vs -> (length (filter is_hand vs) <= 2)%nat ->
  In a vs -> In b vs -> In c vs ->
  In a HAND_NOTES -> In b HAND_NOTES -> In c HAND_NOTES ->
  a <> b -> c = a \/ c = b.
Proof.
  intros Hnd Hcap Ha Hb Hc Hha Hhb Hhc Hab.
  destruct (Z.eq_dec c a) as [| Hca]; [now left |].
  destruct (Z.eq_dec c b) as [| Hcb]; [now right |].
  exfalso.
  assert (H3 : (length [a; b; c] <= length (filter is_hand vs))%nat).
  { apply NoDup_incl_length.
    - repeat constructor; simpl; intuition congruence.
    - intros x [<- | [<- | [<- | []]]]; apply filter_In; split;
        try assumption; now apply mem_In. }
  simpl in H3. lia.
Qed.

Section BeatFacts.

Variable A : Type.
Variable set_iter : list Z -> list Z.
Hypothesis set_iter_spec : set_iter_ok set_iter.

Lemma trim_standard (fuel : nat) (ns : list (Note A)) :
  (2 <= fuel)%nat -> NoDup (map value ns) ->
  exists ns2, _trim_note_values set_iter fuel ns = Some ns2 /\
              NoDup (map value ns2) /\ (hand_count ns2 <= 2)%nat /\
              (forall n, In n ns2 -> In n ns).
Proof.
  intros Hfuel Hnd.
  destruct (trim_spec A set_iter set_iter_spec fuel ns Hfuel)
    as (rv & hv & Heq & Hhv & Hlen & Hhand & _).
  exists (filter (fun note => mem (value note) rv) ns).
  split; [assumption |]. split; [now apply NoDup_map_filter |].
  split; [| intros n Hn; now apply filter_In in Hn].
  unfold hand_count. rewrite <- (length_map value).
  etransitivity; [| exact Hlen].
  apply NoDup_incl_length.
  - now do 2 apply NoDup_map_filter.
  - intros y Hy. apply in_map_iff in Hy. destruct Hy as (n & <- & Hn).
    apply filter_In in Hn. destruct Hn as [Hn Hh].
    apply filter_In in Hn. destruct Hn as [_ Hr].
    apply Hhand; now apply mem_In.
Qed.

(** A trim of a beat that already obeys the cap keeps every note. *)
Lemma trim_within_cap (fuel : nat) (ns : list (Note A)) :
  (2 <= fuel)%nat -> NoDup (map value ns) -> (hand_count ns <= 2)%nat ->
  _trim_note_values set_iter fuel ns = Some ns.
Proof.
  intros Hfuel Hnd Hcap.
  destruct (trim_spec A set_iter set_iter_spec fuel ns Hfuel)
    as (rv & hv & Heq & _ & _ & _ & _ & Hall).
  rewrite Heq. f_equal. apply forallb_filter_id. apply forallb_forall.
  intros n Hn. apply mem_In, Hall; [| now apply in_map].
  destruct (set_iter_spec (map value ns)) as [Hi Hin].
  rewrite (same_elements_filter_length is_hand _ (map value ns) Hi Hnd Hin).
  now rewrite filter_map_length.
Qed.

(** The beat after the three steps, and the trimmed notes it was placed
    from. *)
Lemma standardize_notes_spec (fuel : nat) (ns : list (Note A)) :
  (2 <= fuel)%nat ->
  exists ns2,
    standardize_notes set_iter fuel ns
      = Some (map (fun note => _place_note note (set_iter (map value ns2))) ns2) /\
    standard ns2 /\
    (forall n, In n ns2 -> In n (dedup_by_value (map _simplify_note ns))).
Proof.
  intros Hfuel. destruct ns as [| n0 ns0].
  - exists []. split; [reflexivity |]. split; [| intros n []].
    split; [constructor |]. split; [unfold hand_count; simpl; lia | intros n []].
  - set (ns := n0 :: ns0).
    destruct (trim_standard fuel (dedup_by_value (map _simplify_note ns)) Hfuel
                (dedup_NoDup A _)) as (ns2 & Heq & Hnd & Hcap & Hsub).
    exists ns2. split.
    + unfold standardize_notes. fold ns. rewrite Heq. reflexivity.
    + split; [| assumption]. split; [assumption |]. split; [assumption |].
      intros n Hn. apply Hsub in Hn.
      assert (Hv : In (value n) (map value (map _simplify_note ns))).
      { apply dedup_In_value. now apply in_map. }
      apply in_map_iff in Hv. destruct Hv as (m & Hv & Hm).
      apply in_map_iff in Hm. destruct Hm as (m0 & <- & _).
      rewrite <- Hv. apply simplify_value.
Qed.

Lemma standard_placed (ns : list (Note A)) (nv : list Z) :
  standard ns -> standard (map (fun note => _place_note note nv) ns).
Proof.
  assert (Hval : map value (map (fun note => _place_note note nv) ns)
                 = map value ns).
  { rewrite map_map. apply map_ext. intros n. apply place_value. }
  intros (Hnd & Hcap & Hcan). split; [now rewrite Hval |]. split.
  - unfold hand_count in *.
    rewrite <- (filter_map_length value is_hand) in *. now rewrite Hval.
  - intros n Hn. apply in_map_iff in Hn. destruct Hn as (m & <- & Hm).
    rewrite place_value. now apply Hcan.
Qed.

(** A standardized beat goes through the three steps untouched, except
    that its notes are placed again. *)
Lemma standardize_standard (fuel : nat) (ns : list (Note A)) :
  (2 <= fuel)%nat -> standard ns ->
  standardize_notes set_iter fuel ns
    = Some (map (fun note => _place_note note (set_iter (map value ns))) ns).
Proof.
  intros Hfuel (Hnd & Hcap & Hcan).
  destruct ns as [| n0 ns0]; [reflexivity |].
  set (ns := n0 :: ns0) in *. unfold standardize_notes. fold ns.
  assert (Hs : map _simplify_note ns = ns).
  { rewrite <- (map_id ns) at 2. apply map_ext_in. intros n Hn.
    destruct (Hcan n Hn) as (H1 & H2 & H3). now apply simplify_canonical. }
  rewrite Hs, (dedup_distinct A ns Hnd).
  now rewrite (trim_within_cap fuel ns Hfuel Hnd Hcap).
Qed.

End BeatFacts.

(** ** An iteration order to run the definitions with *)

Lemma first_seen_ok : set_iter_ok first_seen.
Proof.
  assert (Hin : forall l x, In x (first_seen l) <-> In x l).
  { induction l as [| a l IH]; intros x; simpl; [tauto |].
    rewrite filter_In, IH, negb_true_iff, Z.eqb_neq.
    destruct (Z.eq_dec a x); intuition congruence. }
  intros l. split; [| apply Hin].
  induction l as [| a l IH]; simpl; constructor.
  - rewrite filter_In, negb_true_iff, Z.eqb_neq. tauto.
  - now apply NoDup_filter.
Qed.

(** ** Strings of a standardized beat *)

(** Two recognized notes of different codes, in a beat that obeys the cap,
    are never put on the same string. *)
Lemma lanes_distinct {A : Type} (n m : Note A) (vs nv : list Z) :
  NoDup vs -> (length (filter is_hand vs) <= 2)%nat ->
  (forall x, In x nv <-> In x vs) ->
  In (value n) vs -> In (value m) vs -> value n <> value m ->
  recognized (value n) = true -> recognized (value m) = true ->
  string (_place_note n nv) <> string (_place_note m nv).
Proof.
  intros Hnd Hcap Hnv Hn Hm Hneq Rn Rm.
  assert (Hthird : forall a b c, In a vs -> In b vs -> In c nv ->
            In a HAND_NOTES -> In b HAND_NOTES -> In c HAND_NOTES ->
            a <> b -> c = a \/ c = b).
  { intros a b c Ha Hb Hc. apply Hnv in Hc. now apply hand_cap_third with vs. }
  destruct (place_lane n nv Rn)
    as [[Vn Sn] | [[Vn Sn] | [(Cn & N44 & Ln) | (Tn & Ln)]]];
  destruct (place_lane m nv Rm)
    as [[Vm Sm] | [[Vm Sm] | [(Cm & M44 & Lm) | (Tm & Lm)]]];
  try (rewrite Sn); try (rewrite Sm);
  try (destruct Ln as [(Sn & Ln) | (Sn & Ln)]; rewrite Sn);
  try (destruct Lm as [(Sm & Lm) | (Sm & Lm)]; rewrite Sm);
  try lia; try congruence; exfalso.
  - (* two cymbals on string 1 *)
    assert (Hw : forall a b, In a vs -> In a CYMBALS -> a <> b ->
              cymbal_on_string_1 b nv = false -> a <> 49 /\ b < a).
    { intros a b Ha Ca Hab Hb.
      destruct (Z.eq_dec a 49) as [-> | Hc];
        [| destruct (Z_lt_le_dec a b) as [Hlt | Hle]; [| split; [assumption | lia]]];
        assert (cymbal_on_string_1 b nv = true)
          by (apply cymbal_on_string_1_iff; eexists; split;
              [apply Hnv; eassumption | split; [assumption | lia]]);
        congruence. }
    destruct Ln as [Ln | Ln], Lm as [Lm | Lm].
    + congruence.
    + destruct (Hw (value n) (value m) Hn Cn Hneq Lm). congruence.
    + destruct (Hw (value m) (value n) Hm Cm (not_eq_sym Hneq) Ln). congruence.
    + destruct (Hw (value n) (value m) Hn Cn Hneq Lm).
      destruct (Hw (value m) (value n) Hm Cm (not_eq_sym Hneq) Ln). lia.
  - (* two cymbals on string 2 *)
    destruct Ln as [N49 Ln]. destruct Lm as [M49 Lm].
    apply cymbal_on_string_1_iff in Ln, Lm.
    destruct Ln as (w & Hw & Cw & Hwn). destruct Lm as (u & Hu & Cu & Hum).
    apply CYMBALS_hand in Cn, Cm, Cw, Cu.
    destruct (Hthird _ _ w Hn Hm Hw Cn Cm Cw Hneq);
      destruct (Hthird _ _ u Hn Hm Hu Cn Cm Cu Hneq); subst; lia.
  - (* two toms on string 3 *)
    assert (Hw : forall a b, In a vs -> In a TOMS -> a <> b ->
              tom_on_string_3 b nv = false -> a <> 38 /\ b < a).
    { intros a b Ha Ca Hab Hb.
      destruct (Z.eq_dec a 38) as [-> | Hc];
        [| destruct (Z_lt_le_dec a b) as [Hlt | Hle]; [| split; [assumption | lia]]];
        assert (tom_on_string_3 b nv = true)
          by (apply tom_on_string_3_iff; eexists; split;
              [apply Hnv; eassumption | split; [assumption | lia]]);
        congruence. }
    destruct Ln as [Ln | Ln], Lm as [Lm | Lm].
    + congruence.
    + destruct (Hw (value n) (value m) Hn Tn Hneq Lm). congruence.
    + destruct (Hw (value m) (value n) Hm Tm (not_eq_sym Hneq) Ln). congruence.
    + destruct (Hw (value n) (value m) Hn Tn Hneq Lm).
      destruct (Hw (value m) (value n) Hm Tm (not_eq_sym Hneq) Ln). lia.
  - (* two toms on string 4 *)
    destruct Ln as [N38 Ln]. destruct Lm as [M38 Lm].
    apply tom_on_string_3_iff in Ln, Lm.
    destruct Ln as (w & Hw & Cw & Hwn). destruct Lm as (u & Hu & Cu & Hum).
    apply TOMS_hand in Tn, Tm, Cw, Cu.
    destruct (Hthird _ _ w Hn Hm Hw Tn Tm Cw Hneq);
      destruct (Hthird _ _ u Hn Hm Hu Tn Tm Cu Hneq); subst; lia.
Qed.

(** ** Helpers on lists *)

Lemma mapM_total {X Y : Type} (f : X -> option Y) (P : Y -> Prop) (l : list X) :
  (forall x, In x l -> exists y, f x = Some y /\ P y) ->
  exists ys, mapM f l = Some ys /\ Forall P ys.
Proof.
  induction l as [| x l IH]; simpl; intros H.
  - exists []. split; [reflexivity | constructor].
  - destruct (H x) as (y & Hy & Py); [now left |].
    destruct IH as (ys & Hys & Pys); [intros z Hz; apply H; now right |].
    exists (y :: ys). rewrite Hy, Hys. split; [reflexivity | now constructor].
Qed.


Lemma find_skip {X : Type} (p : X -> bool) (l1 l2 : list X) (x : X) :
  (forall y, In y l1 -> p y = false) -> p x = true ->
  find p (l1 ++ x :: l2) = Some x.
Proof.
  induction l1 as [| y l1 IH]; simpl; intros Hnone Hx.
  - now rewrite Hx.
  - rewrite (Hnone y) by now left. apply IH; auto.
Qed.

(** ** The claims on the Note Standardizer *)

(** C5. After [standardize_track], which returns for every track, no beat
    of any voice of any measure has more than two notes whose code is in
    [TOMS] or [CYMBALS]. *)
Theorem standardize_track_hand_cap (A D : Type) (set_iter : list Z -> list Z)
  (fuel : nat) (track : Track A D) :
  set_iter_ok set_iter -> (2 <= fuel)%nat ->
  exists track',
    standardize_track set_iter fuel track = Some track' /\
    forall measure voice beat,
      In measure (measures track') -> In voice (voices measure) ->
      In beat (beats voice) -> (hand_count (notes beat) <= 2)%nat.
Proof.
  intros Hok Hfuel.
  assert (Hbeat : forall beat : Beat A D, exists beat',
             standardize_beat set_iter fuel beat = Some beat' /\
             (hand_count (notes beat') <= 2)%nat).
  { intros beat. unfold standardize_beat.
    destruct (standardize_notes_spec A set_iter Hok fuel (notes beat) Hfuel)
      as (ns2 & Heq & Hstd & _).
    rewrite Heq. simpl. eexists. split; [reflexivity |]. simpl.
    apply (standard_placed A). exact Hstd. }
  assert (Hvoice : forall voice : Voice A D, exists voice',
             standardize_voice set_iter fuel voice = Some voice' /\
             Forall (fun beat => (hand_count (notes beat) <= 2)%nat)
                    (beats voice')).
  { intros voice. unfold standardize_voice.
    destruct (mapM_total (standardize_beat set_iter fuel)
                (fun beat => (hand_count (notes beat) <= 2)%nat) (beats voice))
      as (bs & Hbs & Pbs); [intros; apply Hbeat |].
    rewrite Hbs. simpl. eexists. split; [reflexivity | exact Pbs]. }
  assert (Hmeasure : forall measure : Measure A D, exists measure',
             standardize_measure set_iter fuel measure = Some measure' /\
             Forall (fun voice =>
                       Forall (fun beat => (hand_count (notes beat) <= 2)%nat)
                              (beats voice)) (voices measure')).
  { intros measure. unfold standardize_measure.
    destruct (mapM_total (standardize_voice set_iter fuel)
                (fun voice =>
                   Forall (fun beat => (hand_count (notes beat) <= 2)%nat)
                          (beats voice)) (voices measure))
      as (vs & Hvs & Pvs); [intros; apply Hvoice |].
    rewrite Hvs. simpl. eexists. split; [reflexivity | exact Pvs]. }
  unfold standardize_track.
  destruct (mapM_total (standardize_measure set_iter fuel)
              (fun measure =>
                 Forall (fun voice =>
                   Forall (fun beat => (hand_count (notes beat) <= 2)%nat)
                          (beats voice)) (voices measure)) (measures track))
    as (ms & Hms & Pms); [intros; apply Hmeasure |].
  rewrite Hms. simpl. eexists. split; [reflexivity |]. simpl.
  intros measure voice beat Hm Hv Hb.
  rewrite Forall_forall in Pms. specialize (Pms measure Hm).
  rewrite Forall_forall in Pms. specialize (Pms voice Hv).
  rewrite Forall_forall in Pms. exact (Pms beat Hb).
Qed.

(** C9. In the beat that the three steps return, two notes at different
    positions, both of a code that [_place_note] has a rule for, are on
    different strings. *)
Theorem standardize_strings_distinct (A : Type) (set_iter : list Z -> list Z)
  (fuel : nat) (ns : list (Note A)) :
  set_iter_ok set_iter -> (2 <= fuel)%nat ->
  exists out,
    standardize_notes set_iter fuel ns = Some out /\
    forall i j n m,
      i <> j -> nth_error out i = Some n -> nth_error out j = Some m ->
      recognized (value n) = true -> recognized (value m) = true ->
      string n <> string m.
Proof.
  intros Hok Hfuel.
  destruct (standardize_notes_spec A set_iter Hok fuel ns Hfuel)
    as (ns2 & Heq & (Hnd & Hcap & _) & _).
  eexists. split; [exact Heq |].
  intros i j n m Hij Hi Hj Rn Rm.
  rewrite nth_error_map in Hi, Hj.
  destruct (nth_error ns2 i) as [n0 |] eqn:Ei; [| discriminate].
  destruct (nth_error ns2 j) as [m0 |] eqn:Ej; [| discriminate].
  simpl in Hi, Hj. inversion Hi; inversion Hj; subst n m; clear Hi Hj.
  rewrite place_value in Rn, Rm.
  assert (Hneq : value n0 <> value m0).
  { intros E. apply Hij.
    apply (proj1 (NoDup_nth_error (map value ns2)) Hnd).
    - rewrite length_map. apply nth_error_Some. congruence.
    - rewrite !nth_error_map, Ei, Ej. simpl. now rewrite E. }
  apply lanes_distinct with (vs := map value ns2); try assumption.
  - unfold hand_count in Hcap. now rewrite filter_map_length.
  - apply Hok.
  - apply in_map. eapply nth_error_In. eassumption.
  - apply in_map. eapply nth_error_In. eassumption.
Qed.

(** C7. Running the three steps on a beat they have already rewritten gives
    that beat back: the same notes, hence the same codes and the same
    strings.  [_simplify_note] leaves 36, 38 and 51 alone, and leaves alone
    whatever it has returned. *)
Theorem standardize_beat_idempotent (A D : Type) (set_iter : list Z -> list Z)
  (fuel : nat) (beat : Beat A D) :
  set_iter_ok set_iter -> (2 <= fuel)%nat ->
  (exists beat',
     standardize_beat set_iter fuel beat = Some beat' /\
     standardize_beat set_iter fuel beat' = Some beat') /\
  (forall n : Note A,
     value n = 36 \/ value n = 38 \/ value n = 51 -> _simplify_note n = n) /\
  (forall n : Note A, _simplify_note (_simplify_note n) = _simplify_note n).
Proof.
  intros Hok Hfuel. split; [| split].
  - unfold standardize_beat.
    destruct (standardize_notes_spec A set_iter Hok fuel (notes beat) Hfuel)
      as (ns2 & Heq & Hstd & _).
    rewrite Heq. simpl. eexists. split; [reflexivity |]. simpl.
    rewrite (standardize_standard A set_iter Hok fuel _ Hfuel
               (standard_placed A ns2 _ Hstd)).
    simpl. do 2 f_equal.
    assert (Hval : map value
                     (map (fun note => _place_note note (set_iter (map value ns2)))
                          ns2) = map value ns2).
    { rewrite map_map. apply map_ext. intros n. apply place_value. }
    rewrite Hval, map_map. apply map_ext. intros n. apply place_idem.
  - intros n Hn. apply simplify_canonical; lia.
  - intros n. destruct (simplify_value n) as (H1 & H2 & H3).
    now apply simplify_canonical.
Qed.


Lemma place_cymbal_string {A : Type} (n : Note A) (nv : list Z) :
  In (value n) CYMBALS -> value n <> 49 -> value n <> 44 ->
  string (_place_note n nv) = if cymbal_on_string_1 (value n) nv then 2 else 1.
Proof.
  intros Hc H49 H44. unfold _place_note.
  assert (E36 : (value n =? 36) = false)
    by (apply Z.eqb_neq; intros E; rewrite E in Hc; simpl in Hc; lia).
  assert (E38 : (value n =? 38) = false)
    by (apply Z.eqb_neq; intros E; rewrite E in Hc; simpl in Hc; lia).
  apply Z.eqb_neq in H49, H44. apply mem_In in Hc.
  rewrite E36, E38, H44, H49, Hc.
  now destruct (cymbal_on_string_1 (value n) nv).
Qed.

(** ** The priority rule of the trim *)

(** With one code retained and a single cymbal left to choose, the loop
    picks that cymbal and stops, whatever the iteration order. *)
Lemma fill_loop_one_cymbal (fuel : nat) (nv : list Z) (r c : Z) :
  In c nv -> In c CYMBALS -> c <> r ->
  (forall v, In v nv -> In v CYMBALS -> v <> r -> v = c) ->
  fill_loop (S fuel) nv [r] = Some [r; c].
Proof.
  intros Hc Hcc Hcr Honly. rewrite fill_loop_unfold. simpl.
  unfold fill_turn.
  destruct (try_append_cases true CYMBALS nv [r])
    as [[_ [Hf | Hf]] | (v & _ & Hv & Hvc & Hvr & E)].
  - discriminate.
  - rewrite (candidate_found CYMBALS nv [r] c) in Hf; try assumption;
      [discriminate | simpl; intuition congruence].
  - assert (v = c) by (apply Honly; auto; simpl in Hvr; intuition congruence).
    subst v. rewrite E. simpl. unfold try_append. simpl.
    rewrite fill_loop_unfold. reflexivity.
Qed.

(** A beat with three hand codes or more, no snare, and the second crash
    cymbal 57 as its only cymbal besides 49: the retained hand codes are 49
    and 57, whether or not 49 is in the beat. *)
Lemma trim_crash_pair {A : Type} (set_iter : list Z -> list Z) (fuel : nat)
  (ns : list (Note A)) :
  set_iter_ok set_iter -> (1 <= fuel)%nat ->
  (3 <= length (filter is_hand (set_iter (map value ns))))%nat ->
  ~ In 38 (map value ns) -> In 57 (map value ns) ->
  (forall v, In v (map value ns) -> In v CYMBALS -> v = 49 \/ v = 57) ->
  _trim_note_values set_iter fuel ns =
  Some (filter (fun n => mem (value n) [49; 57] || negb (is_hand (value n))) ns).
Proof.
  intros Hok Hfuel Hbig H38 H57 Hcym.
  unfold _trim_note_values. cbv zeta. fold is_hand.
  assert (B : (2 <? length (filter is_hand (set_iter (map value ns))))%nat = true)
    by (apply Nat.ltb_lt; lia).
  rewrite B, !(mem_iter set_iter _ _ Hok).
  apply mem_not_In in H38. apply mem_In in H57 as H57'. rewrite H38, H57'.
  assert (E : (if (length (if mem 49 (map value ns) then add 49 [] else [])
                   <? 2)%nat && true
               then add 49 (if mem 49 (map value ns) then add 49 [] else [])
               else (if mem 49 (map value ns) then add 49 [] else [])) = [49])
    by (destruct (mem 49 (map value ns)); reflexivity).
  rewrite E. destruct fuel as [| fuel]; [lia |].
  rewrite (fill_loop_one_cymbal fuel (set_iter (map value ns)) 49 57).
  - simpl. f_equal. apply filter_ext_in. intros n Hn.
    rewrite mem_update, mem_filter, (mem_iter set_iter _ _ Hok).
    assert (Hv : mem (value n) (map value ns) = true)
      by (apply mem_In; now apply in_map).
    rewrite Hv, andb_true_r. reflexivity.
  - now apply Hok.
  - simpl. tauto.
  - lia.
  - intros v Hv Hc Hne. apply (proj2 (Hok (map value ns))) in Hv.
    destruct (Hcym v Hv Hc); congruence.
Qed.

Lemma iter_hand_codes {A : Type} (set_iter : list Z -> list Z) (ns : list (Note A)) :
  set_iter_ok set_iter ->
  length (filter is_hand (set_iter (map value ns))) = distinct_hand_codes ns.
Proof.
  intros Hok. unfold distinct_hand_codes.
  apply same_elements_filter_length.
  - apply Hok.
  - apply first_seen_ok.
  - intros x. rewrite (proj2 (Hok _)), (proj2 (first_seen_ok _)). tauto.
Qed.

(** X22. Over the cap, a trim returns exactly two hand notes, both notes of
    the beat, unless 57 is in the beat and 49 is not. *)
Lemma trim_two_hand_notes {A : Type} (set_iter : list Z -> list Z) (fuel : nat)
  (ns : list (Note A)) :
  set_iter_ok set_iter -> (2 <= fuel)%nat ->
  NoDup (map value ns) -> (2 < distinct_hand_codes ns)%nat ->
  (In 57 (map value ns) -> In 49 (map value ns)) ->
  exists ns2,
    _trim_note_values set_iter fuel ns = Some ns2 /\
    hand_count ns2 = 2%nat /\ (forall n, In n ns2 -> In n ns).
Proof.
  intros Hok Hfuel Hnd Hbig H57.
  rewrite <- (iter_hand_codes set_iter ns Hok) in Hbig.
  destruct (trim_over_cap A set_iter Hok fuel ns Hfuel Hbig)
    as (r & Heq & Hr & Hlen & Hfrom & _).
  eexists. split; [exact Heq |].
  split; [| intros n Hn; now apply filter_In in Hn].
  unfold hand_count. rewrite <- (length_map value), <- Hlen.
  apply Nat.le_antisymm; apply NoDup_incl_length.
  - now do 2 apply NoDup_map_filter.
  - intros y Hy. apply in_map_iff in Hy. destruct Hy as (n & <- & Hn).
    apply filter_In in Hn. destruct Hn as [Hn Hh].
    apply filter_In in Hn. destruct Hn as [_ Hm].
    rewrite Hh in Hm. simpl in Hm. rewrite orb_false_r in Hm.
    now apply mem_In.
  - assumption.
  - intros y Hy. destruct (Hfrom y Hy) as [[Hin Hh] | (_ & H & H')];
      [| now apply H57 in H].
    apply in_map_iff in Hin. destruct Hin as (n & <- & Hn).
    apply in_map. apply filter_In. split; [| now apply mem_In].
    apply filter_In. split; [assumption |].
    apply mem_In in Hy. now rewrite Hy.
Qed.

(** C1. A beat of the second crash cymbal and two toms has three hand
    codes; the trim retains 49, which the beat does not hold, next to 57, and
    returns the single note 57: one hand note, not two. *)
Theorem trim_crash_2_and_two_toms (A : Type) (set_iter : list Z -> list Z)
  (fuel : nat) (s1 s2 s3 : Z) (a1 a2 a3 : A) :
  set_iter_ok set_iter -> (2 <= fuel)%nat ->
  distinct_hand_codes [mkNote 57 s1 a1; mkNote 45 s2 a2; mkNote 47 s3 a3] = 3%nat /\
  _trim_note_values set_iter fuel
    [mkNote 57 s1 a1; mkNote 45 s2 a2; mkNote 47 s3 a3]
  = Some [mkNote 57 s1 a1].
Proof.
  intros Hok Hfuel. split; [reflexivity |].
  rewrite trim_crash_pair; try assumption.
  - reflexivity.
  - lia.
  - rewrite iter_hand_codes by assumption. unfold distinct_hand_codes. simpl. lia.
  - simpl. intuition discriminate.
  - simpl. tauto.
  - simpl. intros v [<- | [<- | [<- | []]]]; simpl; intuition discriminate.
Qed.

(** What a trim is sure to return: every note of code 36, of code 38, and
    of a code outside [TOMS] and [CYMBALS]; and every note of the beat when
    the beat has at most two distinct codes of [HAND_NOTES]. *)
Theorem trim_keeps_bass_snare_unclassified (A : Type)
  (set_iter : list Z -> list Z) (fuel : nat) (ns : list (Note A)) :
  set_iter_ok set_iter -> (2 <= fuel)%nat ->
  exists ns2,
    _trim_note_values set_iter fuel ns = Some ns2 /\
    (forall n, In n ns ->
               value n = 36 \/ value n = 38 \/ ~ In (value n) HAND_NOTES ->
               In n ns2) /\
    ((distinct_hand_codes ns <= 2)%nat -> forall n, In n ns -> In n ns2).
Proof.
  intros Hok Hfuel.
  destruct (trim_spec A set_iter Hok fuel ns Hfuel)
    as (rv & hv & Heq & _ & _ & _ & Hkeep & Hall).
  eexists. split; [exact Heq |]. split.
  - intros n Hn Hv. apply filter_In. split; [assumption |].
    apply mem_In, Hkeep; [now apply in_map |].
    destruct Hv as [E | [E | Hv]]; auto.
    right. rewrite E. unfold HAND_NOTES, TOMS, CYMBALS. simpl.
    intuition discriminate.
  - intros Hcap n Hn. apply filter_In. split; [assumption |].
    apply mem_In, Hall; [| now apply in_map].
    now rewrite iter_hand_codes.
Qed.

(** Snare, crash cymbal and pedal hi-hat on one beat, run with the codes
    iterated in order of first insertion: the pedal hi-hat is dropped. *)
Lemma trim_drops_pedal_hihat :
  _trim_note_values first_seen 2
    [mkNote 38 0 tt; mkNote 49 0 tt; mkNote 44 0 tt]
  = Some [mkNote 38 0 tt; mkNote 49 0 tt] /\
  ~ In (mkNote 44 0 tt) [mkNote 38 0 tt; mkNote 49 0 tt].
Proof.
  split; [reflexivity |]. simpl. intuition discriminate.
Qed.

(** C3, as the source has it. From a beat of codes 49, 57, 45, 47 and 41 the
    trim keeps the two crash cymbals and no tom; 49 is then placed on
    string 1 and 57 on string 2. *)
Theorem scenario_B_keeps_both_crashes (A : Type) (set_iter : list Z -> list Z)
  (fuel : nat) (ns : list (Note A)) :
  set_iter_ok set_iter -> (2 <= fuel)%nat ->
  (forall v, In v (map value ns) <-> In v [49; 57; 45; 47; 41]) ->
  exists ns2,
    _trim_note_values set_iter fuel ns = Some ns2 /\
    ns2 = filter (fun n => mem (value n) [49; 57]) ns /\
    (forall v, In v (map value ns2) <-> v = 49 \/ v = 57) /\
    (forall n, In n ns2 ->
       (value n = 49 /\
        string (_place_note n (set_iter (map value ns2))) = 1) \/
       (value n = 57 /\
        string (_place_note n (set_iter (map value ns2))) = 2)).
Proof.
  intros Hok Hfuel Hcodes.
  assert (Hvals : forall v, In v (map value (filter (fun n => mem (value n) [49; 57]) ns))
                            <-> v = 49 \/ v = 57).
  { intros v. rewrite in_map_iff. split.
    - intros (n & <- & Hn). apply filter_In in Hn. destruct Hn as [_ Hn].
      apply mem_In in Hn. simpl in Hn. intuition congruence.
    - intros Hv.
      assert (Hin : In v (map value ns)) by (apply Hcodes; simpl; intuition).
      apply in_map_iff in Hin. destruct Hin as (n & <- & Hn).
      exists n. split; [reflexivity |]. apply filter_In. split; [assumption |].
      apply mem_In. simpl. intuition. }
  eexists. split; [| split; [reflexivity | split; [exact Hvals |]]].
  - rewrite trim_crash_pair; try assumption.
    + f_equal. apply filter_ext_in. intros n Hn.
      assert (Hv : In (value n) [49; 57; 45; 47; 41])
        by (apply Hcodes; now apply in_map).
      simpl in Hv.
      destruct Hv as [<- | [<- | [<- | [<- | [<- | []]]]]]; reflexivity.
    + lia.
    + rewrite (same_elements_filter_length is_hand _ [49; 57; 45; 47; 41]).
      * simpl. lia.
      * apply Hok.
      * nodup_list.
      * intros x. rewrite (proj2 (Hok _)). apply Hcodes.
    + rewrite Hcodes. simpl. intuition discriminate.
    + apply Hcodes. simpl. tauto.
    + intros v Hv Hc. apply Hcodes in Hv. simpl in Hv.
      destruct Hv as [<- | [<- | [<- | [<- | [<- | []]]]]]; auto;
        simpl in Hc; intuition discriminate.
  - intros n Hn. assert (Hv : In (value n) (map value (filter (fun n => mem (value n) [49; 57]) ns)))
      by now apply in_map.
    apply Hvals in Hv. destruct Hv as [Hv | Hv]; [left | right];
      (split; [assumption |]).
    + unfold _place_note. rewrite Hv. reflexivity.
    + rewrite place_cymbal_string; rewrite Hv; try lia; [| simpl; tauto].
      assert (C : cymbal_on_string_1 57
                    (set_iter (map value (filter (fun n => mem (value n) [49; 57]) ns)))
                  = true).
      { apply cymbal_on_string_1_iff. exists 49. split; [| simpl; tauto].
        apply Hok, Hvals. now left. }
      now rewrite C.
Qed.

(** C3, as the spec has it, fails: the beat keeps 49 and 57, on strings 1
    and 2, and none of the toms 45, 47, 41. *)
Lemma scenario_B_keeps_no_tom :
  standardize_notes first_seen 2
    [mkNote 49 0 tt; mkNote 57 0 tt; mkNote 45 0 tt; mkNote 47 0 tt;
     mkNote 41 0 tt]
  = Some [mkNote 49 1 tt; mkNote 57 2 tt] /\
  ~ scenario_B_as_specified (map value [mkNote 49 1 tt; mkNote 57 2 tt]).
Proof.
  split; [reflexivity |].
  intros (t & Ht & Hcodes).
  assert (H57 : 57 = 49 \/ 57 = t) by (apply Hcodes; simpl; tauto).
  simpl in Ht. lia.
Qed.

(** The test of [_place_note] for a note of a code in [CYMBALS] other than
    49 and 44, as written: string 2 exactly when the beat holds a lower code
    of [CYMBALS] or holds 49, string 1 otherwise. *)
Theorem place_other_cymbal (A : Type) (n : Note A) (note_values : list Z) :
  In (value n) CYMBALS -> value n <> 49 -> value n <> 44 ->
  (string (_place_note n note_values) = 2 <->
   (exists w, In w note_values /\ In w CYMBALS /\ w < value n) \/
   In 49 note_values) /\
  (string (_place_note n note_values) = 1 <->
   ~ ((exists w, In w note_values /\ In w CYMBALS /\ w < value n) \/
      In 49 note_values)).
Proof.
  intros Hc H49 H44.
  assert (Hiff : cymbal_on_string_1 (value n) note_values = true <->
                 (exists w, In w note_values /\ In w CYMBALS /\ w < value n) \/
                 In 49 note_values).
  { rewrite cymbal_on_string_1_iff. split.
    - intros (w & Hw & Cw & [Hlt | ->]); [left; now exists w | now right].
    - intros [(w & Hw & Cw & Hlt) | H]; [exists w; tauto |].
      exists 49. simpl. tauto. }
  pose proof (place_cymbal_string n note_values Hc H49 H44) as Hs.
  rewrite Hs, <- Hiff.
  destruct (cymbal_on_string_1 (value n) note_values); split; split;
    intros; try reflexivity; try discriminate; try lia; congruence.
Qed.

(** Pedal hi-hat and open hi-hat on one beat, run with the codes iterated in
    order of first insertion: the open hi-hat goes to string 2. *)
Lemma pedal_hihat_takes_string_1 :
  standardize_notes first_seen 2 [mkNote 44 0 tt; mkNote 46 0 tt]
  = Some [mkNote 44 6 tt; mkNote 46 2 tt] /\
  cymbal_category 46 = true /\
  second_cymbal_as_specified 46 [44; 46] = false.
Proof. repeat split. Qed.

(** ** The Rest Coalescer *)

Lemma length_assign {X : Type} (i : nat) (x : X) (l : list X) :
  length (assign i x l) = length l.
Proof.
  revert i. induction l as [| y l IH]; intros [| i]; simpl; auto.
Qed.

Lemma deref_snoc {X : Type} (l : list X) (refs : list nat) (r : nat) (x : X) :
  nth_error l r = Some x -> deref l (refs ++ [r]) = deref l refs ++ [x].
Proof.
  intros H. unfold deref. rewrite flat_map_app. simpl. now rewrite H.
Qed.

Section ClearFacts.

Variables A D : Type.
Variable time : D -> Z.
Variable fromTime : Z -> option D.

(** [last], when set, refers to a beat of the store, the one most recently
    put in [newbeats]: the two branches of [coalesce_step] for a dangling
    reference are never taken. *)
Lemma coalesce_run_refs (bs : list (Beat A D)) (refs : list nat) :
  Forall (fun r => (r < length bs)%nat) refs ->
  let st := coalesce_run time fromTime (mkCoalescer bs None []) refs in
  length (store st) = length bs /\
  forall l, last st = Some l ->
            (l < length bs)%nat /\ exists pre, newbeats st = pre ++ [l].
Proof.
  intros Hrefs. cbv zeta. unfold coalesce_run.
  rewrite <- (rev_involutive refs). apply Forall_rev in Hrefs.
  induction (rev refs) as [| r rs IH]; simpl.
  - split; [reflexivity | discriminate].
  - inversion Hrefs as [| ? ? Hr Hrs]; subst. specialize (IH Hrs).
    rewrite fold_left_app. simpl.
    set (st := fold_left (coalesce_step time fromTime) (rev rs)
                 (mkCoalescer bs None [])) in *.
    destruct IH as [Hlen Hlast]. unfold coalesce_step.
    destruct (nth_error (store st) r) as [beat |]; [| now split].
    destruct (sounding beat); simpl.
    { split; [assumption |]. intros l E. inversion E; subst. eauto. }
    destruct (last st) as [l |] eqn:El; simpl.
    + destruct (nth_error (store st) l) as [lbeat |]; [| rewrite El; now split].
      destruct (fromTime _); simpl.
      * rewrite length_assign. split; [assumption |].
        intros l' E. inversion E; subst. now apply Hlast.
      * split; [assumption |]. intros l' E. inversion E; subst. eauto.
    + split; [assumption | discriminate].
Qed.

(** One turn of the loop at a failed merge: the store stays as it is, the
    silent beat is added to [newbeats] and becomes [last], and a silent beat
    that follows and can be merged is merged into this one. *)
Theorem failed_merge_keeps_rest (st : coalescer A D) (r l : nat)
  (beat lbeat : Beat A D) :
  nth_error (store st) r = Some beat -> notes beat = [] ->
  last st = Some l -> nth_error (store st) l = Some lbeat ->
  fromTime (time (duration lbeat) + time (duration beat)) = None ->
  coalesce_step time fromTime st r
    = mkCoalescer (store st) (Some r) (newbeats st ++ [r]) /\
  deref (store st) (newbeats st ++ [r])
    = deref (store st) (newbeats st) ++ [beat] /\
  forall (r' : nat) (beat' : Beat A D) (d : D),
    nth_error (store st) r' = Some beat' -> notes beat' = [] ->
    fromTime (time (duration beat) + time (duration beat')) = Some d ->
    coalesce_step time fromTime (coalesce_step time fromTime st r) r'
      = mkCoalescer (assign r (set_duration beat d) (store st)) (Some r)
                    (newbeats st ++ [r]).
Proof.
  intros Hr Hsilent Hl Hlb Hfail.
  assert (Hstep : coalesce_step time fromTime st r
                  = mkCoalescer (store st) (Some r) (newbeats st ++ [r])).
  { unfold coalesce_step, sounding. now rewrite Hr, Hsilent, Hl, Hlb, Hfail. }
  split; [exact Hstep |]. split; [now apply deref_snoc |].
  intros r' beat' d Hr' Hsilent' Hd. rewrite Hstep.
  unfold coalesce_step, sounding. simpl.
  now rewrite Hr', Hsilent', Hr, Hd.
Qed.

(** C6, as the source has it. In a voice of a sounding beat, two silent
    beats and a sounding beat, each silent beat is merged in turn into the
    first beat.  When the first beat's time plus the first rest's
    canonicalizes to [d1], and the time of [d1] plus the second rest's to
    [d2], the voice becomes the first beat with duration [d2], then the last
    beat; where canonicalization keeps the time, [d2] lasts as long as the
    three beats together. *)
Theorem scenario_A_merges_in_turn (b1 r1 r2 b4 : Beat A D) (d1 d2 : D) :
  sounding b1 = true -> notes r1 = [] -> notes r2 = [] -> sounding b4 = true ->
  fromTime (time (duration b1) + time (duration r1)) = Some d1 ->
  fromTime (time d1 + time (duration r2)) = Some d2 ->
  remove_rests_from_beats time fromTime [b1; r1; r2; b4]
    = [set_duration b1 d2; b4] /\
  ((forall t d, fromTime t = Some d -> time d = t) ->
   time d2 = time (duration b1) + time (duration r1) + time (duration r2)).
Proof.
  intros H1 Hr1 Hr2 H4 Hd1 Hd2. split.
  - assert (S1 : coalesce_step time fromTime
                   (mkCoalescer [b1; r1; r2; b4] None []) 0
                 = mkCoalescer [b1; r1; r2; b4] (Some 0%nat) [0%nat]).
    { unfold coalesce_step. simpl. now rewrite H1. }
    assert (S2 : coalesce_step time fromTime
                   (mkCoalescer [b1; r1; r2; b4] (Some 0%nat) [0%nat]) 1
                 = mkCoalescer [set_duration b1 d1; r1; r2; b4]
                               (Some 0%nat) [0%nat]).
    { unfold coalesce_step, sounding. simpl. now rewrite Hr1, Hd1. }
    assert (S3 : coalesce_step time fromTime
                   (mkCoalescer [set_duration b1 d1; r1; r2; b4]
                                (Some 0%nat) [0%nat]) 2
                 = mkCoalescer [set_duration b1 d2; r1; r2; b4]
                               (Some 0%nat) [0%nat]).
    { unfold coalesce_step, sounding. simpl. now rewrite Hr2, Hd2. }
    assert (S4 : coalesce_step time fromTime
                   (mkCoalescer [set_duration b1 d2; r1; r2; b4]
                                (Some 0%nat) [0%nat]) 3
                 = mkCoalescer [set_duration b1 d2; r1; r2; b4]
                               (Some 3%nat) [0%nat; 3%nat]).
    { unfold coalesce_step. simpl. now rewrite H4. }
    unfold remove_rests_from_beats, coalesce_run.
    cbn [length seq fold_left]. rewrite S1, S2, S3, S4. reflexivity.
  - intros Hexact. rewrite (Hexact _ _ Hd2), (Hexact _ _ Hd1). reflexivity.
Qed.

End ClearFacts.

(** C6, as the spec has it, fails: two eighth rests make a quarter, but after
    a sixteenth the first rest merges into a dotted eighth, the second merge
    has no notated duration, and three beats are left. *)
Lemma scenario_A_after_a_sixteenth :
  tick_fromTime (tick_time 480 + tick_time 480) = Some 960 /\
  remove_rests_from_beats tick_time tick_fromTime
    [mkBeat 240 [mkNote 38 0 tt]; mkBeat 480 []; mkBeat 480 [];
     mkBeat 960 [mkNote 36 0 tt]]
  = [mkBeat 720 [mkNote 38 0 tt]; mkBeat 480 [];
     mkBeat 960 [mkNote 36 0 tt]].
Proof. split; reflexivity. Qed.

(** ** The theorems at concrete beats *)

Lemma trim_crash_2_and_two_toms_witness :
  set_iter_ok first_seen /\ (2 <= 2)%nat /\
  (distinct_hand_codes [mkNote 57 1 tt; mkNote 45 3 tt; mkNote 47 4 tt] = 3%nat /\
   _trim_note_values first_seen 2
     [mkNote 57 1 tt; mkNote 45 3 tt; mkNote 47 4 tt]
   = Some [mkNote 57 1 tt]).
Proof.
  split; [exact first_seen_ok | split; [lia |]].
  apply (trim_crash_2_and_two_toms unit first_seen 2 1 3 4 tt tt tt
           first_seen_ok).
  lia.
Defined.

Lemma trim_keeps_bass_snare_unclassified_witness :
  set_iter_ok first_seen /\ (2 <= 2)%nat /\
  exists ns2,
    _trim_note_values first_seen 2
      [mkNote 36 0 tt; mkNote 38 0 tt; mkNote 60 0 tt; mkNote 42 0 tt;
       mkNote 45 0 tt; mkNote 47 0 tt] = Some ns2 /\
    (forall n, In n [mkNote 36 0 tt; mkNote 38 0 tt; mkNote 60 0 tt;
                     mkNote 42 0 tt; mkNote 45 0 tt; mkNote 47 0 tt] ->
               value n = 36 \/ value n = 38 \/ ~ In (value n) HAND_NOTES ->
               In n ns2) /\
    ((distinct_hand_codes [mkNote 36 0 tt; mkNote 38 0 tt; mkNote 60 0 tt;
                           mkNote 42 0 tt; mkNote 45 0 tt; mkNote 47 0 tt]
      <= 2)%nat ->
     forall n, In n [mkNote 36 0 tt; mkNote 38 0 tt; mkNote 60 0 tt;
                     mkNote 42 0 tt; mkNote 45 0 tt; mkNote 47 0 tt] ->
               In n ns2).
Proof.
  split; [exact first_seen_ok | split; [lia |]].
  apply (trim_keeps_bass_snare_unclassified unit first_seen 2 _ first_seen_ok).
  lia.
Defined.

Lemma scenario_B_keeps_both_crashes_witness :
  set_iter_ok first_seen /\ (2 <= 2)%nat /\
  (forall v, In v (map value [mkNote 41 0 tt; mkNote 45 0 tt; mkNote 47 0 tt;
                              mkNote 49 0 tt; mkNote 57 0 tt])
             <-> In v [49; 57; 45; 47; 41]) /\
  exists ns2,
    _trim_note_values first_seen 2
      [mkNote 41 0 tt; mkNote 45 0 tt; mkNote 47 0 tt; mkNote 49 0 tt;
       mkNote 57 0 tt] = Some ns2 /\
    ns2 = filter (fun n => mem (value n) [49; 57])
            [mkNote 41 0 tt; mkNote 45 0 tt; mkNote 47 0 tt; mkNote 49 0 tt;
             mkNote 57 0 tt] /\
    (forall v, In v (map value ns2) <-> v = 49 \/ v = 57) /\
    (forall n, In n ns2 ->
       (value n = 49 /\
        string (_place_note n (first_seen (map value ns2))) = 1) \/
       (value n = 57 /\
        string (_place_note n (first_seen (map value ns2))) = 2)).
Proof.
  assert (H : forall v, In v (map value [mkNote 41 0 tt; mkNote 45 0 tt;
                                         mkNote 47 0 tt; mkNote 49 0 tt;
                                         mkNote 57 0 tt])
                        <-> In v [49; 57; 45; 47; 41])
    by (intros v; simpl; tauto).
  split; [exact first_seen_ok | split; [lia | split; [exact H |]]].
  apply (scenario_B_keeps_both_crashes unit first_seen 2 _ first_seen_ok);
    [lia | exact H].
Defined.

Lemma place_other_cymbal_witness :
  In 46 CYMBALS /\ 46 <> 49 /\ 46 <> 44 /\
  (string (_place_note (mkNote 46 0 tt) [42; 46]) = 2 <->
   (exists w, In w [42; 46] /\ In w CYMBALS /\ w < 46) \/ In 49 [42; 46]) /\
  (string (_place_note (mkNote 46 0 tt) [42; 46]) = 1 <->
   ~ ((exists w, In w [42; 46] /\ In w CYMBALS /\ w < 46) \/ In 49 [42; 46])).
Proof.
  assert (H : In 46 CYMBALS) by (simpl; intuition).
  split; [exact H | split; [lia | split; [lia |]]].
  apply (place_other_cymbal unit (mkNote 46 0 tt) [42; 46] H); simpl; lia.
Defined.

Lemma standardize_track_hand_cap_witness :
  set_iter_ok first_seen /\ (2 <= 2)%nat /\
  exists track',
    standardize_track first_seen 2
      (mkTrack true
         [mkMeasure
            [mkVoice
               [mkBeat 960 [mkNote 35 0 tt; mkNote 42 0 tt; mkNote 46 0 tt;
                            mkNote 50 0 tt];
                mkBeat 480 [];
                mkBeat 480 [mkNote 40 0 tt; mkNote 49 0 tt; mkNote 44 0 tt]]]])
    = Some track' /\
    forall measure voice beat,
      In measure (measures track') -> In voice (voices measure) ->
      In beat (beats voice) -> (hand_count (notes beat) <= 2)%nat.
Proof.
  split; [exact first_seen_ok | split; [lia |]].
  apply (standardize_track_hand_cap unit Z first_seen 2 _ first_seen_ok). lia.
Defined.

Lemma standardize_strings_distinct_witness :
  set_iter_ok first_seen /\ (2 <= 2)%nat /\
  exists out,
    standardize_notes first_seen 2
      [mkNote 36 0 tt; mkNote 38 0 tt; mkNote 44 0 tt; mkNote 42 0 tt;
       mkNote 45 0 tt] = Some out /\
    forall i j n m,
      i <> j -> nth_error out i = Some n -> nth_error out j = Some m ->
      recognized (value n) = true -> recognized (value m) = true ->
      string n <> string m.
Proof.
  split; [exact first_seen_ok | split; [lia |]].
  apply (standardize_strings_distinct unit first_seen 2 _ first_seen_ok). lia.
Defined.

Lemma standardize_beat_idempotent_witness :
  set_iter_ok first_seen /\ (2 <= 2)%nat /\
  ((exists beat',
      standardize_beat first_seen 2
        (mkBeat 960 [mkNote 35 0 tt; mkNote 59 0 tt; mkNote 46 0 tt;
                     mkNote 43 0 tt]) = Some beat' /\
      standardize_beat first_seen 2 beat' = Some beat') /\
   (forall n : Note unit,
      value n = 36 \/ value n = 38 \/ value n = 51 -> _simplify_note n = n) /\
   (forall n : Note unit,
      _simplify_note (_simplify_note n) = _simplify_note n)).
Proof.
  split; [exact first_seen_ok | split; [lia |]].
  apply (standardize_beat_idempotent unit Z first_seen 2 _ first_seen_ok). lia.
Defined.


Lemma failed_merge_keeps_rest_witness :
  nth_error [mkBeat 720 [mkNote 38 0 tt]; mkBeat 480 []; mkBeat 480 []] 2
    = Some (mkBeat 480 []) /\
  notes (mkBeat (A := unit) 480 []) = [] /\
  Some 0%nat = Some 0%nat /\
  nth_error [mkBeat 720 [mkNote 38 0 tt]; mkBeat 480 []; mkBeat 480 []] 0
    = Some (mkBeat 720 [mkNote 38 0 tt]) /\
  tick_fromTime (tick_time 720 + tick_time 480) = None /\
  (coalesce_step tick_time tick_fromTime
     (mkCoalescer [mkBeat 720 [mkNote 38 0 tt]; mkBeat 480 []; mkBeat 480 []]
                  (Some 0%nat) [0%nat]) 2
   = mkCoalescer [mkBeat 720 [mkNote 38 0 tt]; mkBeat 480 []; mkBeat 480 []]
                 (Some 2%nat) ([0%nat] ++ [2%nat]) /\
   deref [mkBeat 720 [mkNote 38 0 tt]; mkBeat 480 []; mkBeat 480 []]
         ([0%nat] ++ [2%nat])
   = deref [mkBeat 720 [mkNote 38 0 tt]; mkBeat 480 []; mkBeat 480 []] [0%nat]
     ++ [mkBeat 480 []] /\
   forall (r' : nat) (beat' : Beat unit Z) (d : Z),
     nth_error [mkBeat 720 [mkNote 38 0 tt]; mkBeat 480 []; mkBeat 480 []] r'
       = Some beat' ->
     notes beat' = [] ->
     tick_fromTime (tick_time 480 + tick_time (duration beat')) = Some d ->
     coalesce_step tick_time tick_fromTime
       (coalesce_step tick_time tick_fromTime
          (mkCoalescer
             [mkBeat 720 [mkNote 38 0 tt]; mkBeat 480 []; mkBeat 480 []]
             (Some 0%nat) [0%nat]) 2) r'
     = mkCoalescer
         (assign 2 (set_duration (mkBeat 480 []) d)
            [mkBeat 720 [mkNote 38 0 tt]; mkBeat 480 []; mkBeat 480 []])
         (Some 2%nat) ([0%nat] ++ [2%nat])).
Proof.
  repeat (split; [reflexivity |]).
  apply (failed_merge_keeps_rest unit Z tick_time tick_fromTime
           (mkCoalescer
              [mkBeat 720 [mkNote 38 0 tt]; mkBeat 480 []; mkBeat 480 []]
              (Some 0%nat) [0%nat])
           2 0 (mkBeat 480 []) (mkBeat 720 [mkNote 38 0 tt]));
    reflexivity.
Defined.

Lemma scenario_A_merges_in_turn_witness :
  sounding (mkBeat 960 [mkNote 38 0 tt]) = true /\
  notes (mkBeat (A := unit) 480 []) = [] /\
  sounding (mkBeat 960 [mkNote 36 0 tt]) = true /\
  tick_fromTime (tick_time 960 + tick_time 480) = Some 1440 /\
  tick_fromTime (tick_time 1440 + tick_time 480) = Some 1920 /\
  (remove_rests_from_beats tick_time tick_fromTime
     [mkBeat 960 [mkNote 38 0 tt]; mkBeat 480 []; mkBeat 480 [];
      mkBeat 960 [mkNote 36 0 tt]]
   = [set_duration (mkBeat 960 [mkNote 38 0 tt]) 1920;
      mkBeat 960 [mkNote 36 0 tt]] /\
   ((forall t d, tick_fromTime t = Some d -> tick_time d = t) ->
    tick_time 1920 = tick_time 960 + tick_time 480 + tick_time 480)).
Proof.
  repeat (split; [reflexivity |]).
  apply (scenario_A_merges_in_turn unit Z tick_time tick_fromTime
           (mkBeat 960 [mkNote 38 0 tt]) (mkBeat 480 []) (mkBeat 480 [])
           (mkBeat 960 [mkNote 36 0 tt]) 1440 1920);
    reflexivity.
Defined.

(** ** The Rest Coalescer as a fold *)

Lemma nth_error_assign_eq {X : Type} (i : nat) (x : X) (l : list X) :
  (i < length l)%nat -> nth_error (assign i x l) i = Some x.
Proof.
  revert i. induction l as [| y l IH]; intros [| i] H; simpl in *;
    try lia; auto. apply IH. lia.
Qed.

Lemma nth_error_assign_neq {X : Type} (i r : nat) (x : X) (l : list X) :
  r <> i -> nth_error (assign i x l) r = nth_error l r.
Proof.
  revert i r. induction l as [| y l IH]; intros [| i] [| r] H; simpl;
    try reflexivity; try congruence. apply IH. congruence.
Qed.

Lemma deref_app {X : Type} (l : list X) (p q : list nat) :
  deref l (p ++ q) = deref l p ++ deref l q.
Proof. unfold deref. apply flat_map_app. Qed.

Lemma deref_assign_other {X : Type} (i : nat) (x : X) (l : list X)
  (refs : list nat) :
  ~ In i refs -> deref (assign i x l) refs = deref l refs.
Proof.
  induction refs as [| r refs IH]; simpl; intros H; [reflexivity |].
  rewrite nth_error_assign_neq by tauto. rewrite IH by tauto. reflexivity.
Qed.

Lemma NoDup_push {X : Type} (x : X) (l : list X) :
  NoDup l -> ~ In x l -> NoDup (l ++ [x]).
Proof.
  intros Hl Hx. rewrite <- (rev_involutive (l ++ [x])). apply NoDup_rev.
  rewrite rev_app_distr. simpl. constructor.
  - now rewrite <- in_rev.
  - now apply NoDup_rev.
Qed.

Section CoalescerFold.

Variables A D : Type.
Variable time : D -> Z.
Variable fromTime : Z -> option D.

Lemma step_represents (bs : list (Beat A D)) (k : nat) (st : coalescer A D)
  (acc : list (Beat A D) * bool) (beat : Beat A D) :
  represents bs k st acc -> nth_error bs k = Some beat ->
  represents bs (S k) (coalesce_step time fromTime st k)
             (merge_step time fromTime acc beat).
Proof.
  intros (Hlen & Hrest & Hlt & Hnd & Hout & Hlast) Hk.
  assert (Hkb : (k < length bs)%nat) by (apply nth_error_Some; congruence).
  assert (Hfresh : ~ In k (newbeats st)).
  { intros Hin. rewrite Forall_forall in Hlt. apply Hlt in Hin. lia. }
  assert (Hlt' : Forall (fun r => (r < S k)%nat) (newbeats st))
    by (eapply Forall_impl; [| exact Hlt]; simpl; intros; lia).
  assert (Hpush : forall l' flag,
             (match l' with Some _ => flag = true | None => flag = false end) ->
             (forall l, l' = Some l -> l = k) ->
             represents bs (S k)
               (mkCoalescer (store st) l' (newbeats st ++ [k]))
               (beat :: fst acc, flag)).
  { intros l' flag Hflag Hl'. unfold represents. simpl.
    split; [assumption |]. split; [intros r Hr; apply Hrest; lia |].
    split; [apply Forall_app; split; [assumption | repeat constructor] |].
    split; [now apply NoDup_push |].
    split.
    - rewrite deref_app, Hout. simpl.
      rewrite (Hrest k) by lia. rewrite Hk. reflexivity.
    - destruct l' as [l |]; [| assumption]. split; [assumption |].
      rewrite (Hl' l eq_refl). now exists (newbeats st). }
  unfold coalesce_step, merge_step.
  rewrite (Hrest k) by lia. rewrite Hk.
  destruct (sounding beat).
  { apply Hpush; [reflexivity | intros l E; now inversion E]. }
  destruct (last st) as [l |] eqn:El.
  - destruct Hlast as (Hflag & p & Hp). rewrite Hflag.
    assert (Hl : (l < k)%nat).
    { rewrite Forall_forall in Hlt. apply Hlt. rewrite Hp.
      apply in_app_iff. right. now left. }
    destruct (nth_error (store st) l) as [lbeat |] eqn:Elb;
      [| apply nth_error_None in Elb; lia].
    assert (Hacc : fst acc = lbeat :: rev (deref (store st) p)).
    { rewrite <- (rev_involutive (fst acc)), <- Hout, Hp, deref_app.
      simpl. rewrite Elb. simpl. now rewrite rev_app_distr. }
    rewrite Hacc.
    destruct (fromTime (time (duration lbeat) + time (duration beat)))
      as [d |].
    + unfold represents. simpl. rewrite length_assign.
      split; [assumption |].
      split; [intros r Hr; rewrite nth_error_assign_neq by lia;
              apply Hrest; lia |].
      split; [assumption |]. split; [assumption |]. split.
      * rewrite Hp, deref_app. simpl.
        rewrite nth_error_assign_eq by lia. simpl.
        rewrite deref_assign_other; [now rewrite rev_involutive |].
        rewrite Hp in Hnd. apply NoDup_rev in Hnd.
        rewrite rev_app_distr in Hnd. simpl in Hnd.
        inversion Hnd as [| ? ? Hnot _]; subst. now rewrite <- in_rev in Hnot.
      * split; [reflexivity | now exists p].
    + rewrite <- Hacc. apply Hpush; [reflexivity | intros l0 E; now inversion E].
  - rewrite Hlast. apply Hpush; [reflexivity | discriminate].
Qed.

Lemma run_represents (bs suf : list (Beat A D)) :
  forall (pre : list (Beat A D)) (st : coalescer A D)
         (acc : list (Beat A D) * bool),
    bs = pre ++ suf -> represents bs (length pre) st acc ->
    represents bs (length bs)
      (coalesce_run time fromTime st (seq (length pre) (length suf)))
      (fold_left (merge_step time fromTime) suf acc).
Proof.
  unfold coalesce_run. induction suf as [| beat suf IH]; intros pre st acc Hbs Hrep.
  - simpl. rewrite app_nil_r in Hbs. subst bs. exact Hrep.
  - simpl.
    assert (Hk : nth_error bs (length pre) = Some beat).
    { rewrite Hbs, nth_error_app2 by lia. now rewrite Nat.sub_diag. }
    pose proof (step_represents bs (length pre) st acc beat Hrep Hk) as Hstep.
    specialize (IH (pre ++ [beat])
                  (coalesce_step time fromTime st (length pre))
                  (merge_step time fromTime acc beat)).
    rewrite length_app in IH. simpl in IH. rewrite Nat.add_1_r in IH.
    apply IH; [| exact Hstep].
    rewrite Hbs, <- app_assoc. reflexivity.
Qed.

(** The loop over the store computes the fold. *)
Lemma remove_rests_as_fold (bs : list (Beat A D)) :
  remove_rests_from_beats time fromTime bs = merge_rests time fromTime bs.
Proof.
  unfold remove_rests_from_beats, merge_rests. cbv zeta.
  assert (H0 : represents bs (length (@nil (Beat A D)))
                 (mkCoalescer bs None []) ([], false)).
  { unfold represents. simpl. repeat split; auto; constructor. }
  destruct (run_represents bs bs [] _ _ eq_refl H0)
    as (_ & _ & _ & _ & Hout & _).
  exact Hout.
Qed.

End CoalescerFold.

Lemma total_time_app {A D : Type} (time : D -> Z) (l1 l2 : list (Beat A D)) :
  total_time time (l1 ++ l2) = total_time time l1 + total_time time l2.
Proof.
  unfold total_time. induction l1 as [| b l1 IH]; simpl; [reflexivity |].
  rewrite IH. lia.
Qed.

Lemma total_time_rev {A D : Type} (time : D -> Z) (l : list (Beat A D)) :
  total_time time (rev l) = total_time time l.
Proof.
  induction l as [| b l IH]; simpl; [reflexivity |].
  rewrite total_time_app, IH. unfold total_time. simpl. lia.
Qed.

Lemma filter_rev {X : Type} (p : X -> bool) (l : list X) :
  filter p (rev l) = rev (filter p l).
Proof.
  induction l as [| x l IH]; simpl; [reflexivity |].
  rewrite filter_app, IH. simpl. destruct (p x); simpl;
    [reflexivity | now rewrite app_nil_r].
Qed.

Section FoldFacts.

Variables A D : Type.
Variable time : D -> Z.
Variable fromTime : Z -> option D.

Lemma step_ok (acc : list (Beat A D) * bool) (beat : Beat A D) :
  acc_ok acc -> acc_ok (merge_step time fromTime acc beat).
Proof.
  unfold acc_ok, merge_step. intros Hok.
  destruct (sounding beat); [simpl; discriminate |].
  destruct (snd acc) eqn:Ef; [| simpl; discriminate].
  destruct (fst acc) as [| lbeat out] eqn:Eo;
    [intros _; rewrite Eo; now apply Hok |].
  destruct (fromTime _); simpl; discriminate.
Qed.

Lemma fold_ok (bs : list (Beat A D)) (acc : list (Beat A D) * bool) :
  acc_ok acc -> acc_ok (fold_left (merge_step time fromTime) bs acc).
Proof.
  revert acc. induction bs as [| b bs IH]; simpl; intros acc Hok.
  - exact Hok.
  - apply IH, step_ok, Hok.
Qed.

(** A step reads and writes the latest beat only: what lies below it in the
    accumulator stays. *)
Lemma step_base (out base : list (Beat A D)) (flag : bool) (beat : Beat A D) :
  acc_ok (out, flag) ->
  merge_step time fromTime (out ++ base, flag) beat
  = (fst (merge_step time fromTime (out, flag) beat) ++ base, snd (merge_step time fromTime (out, flag) beat)).
Proof.
  unfold acc_ok, merge_step. simpl. intros Hok.
  destruct (sounding beat); [reflexivity |].
  destruct flag; [| reflexivity].
  destruct out as [| lbeat out]; [now destruct Hok |]. simpl.
  now destruct (fromTime _).
Qed.

Lemma fold_base (bs out base : list (Beat A D)) (flag : bool) :
  acc_ok (out, flag) ->
  fold_left (merge_step time fromTime) bs (out ++ base, flag)
  = (fst (fold_left (merge_step time fromTime) bs (out, flag)) ++ base,
     snd (fold_left (merge_step time fromTime) bs (out, flag))).
Proof.
  revert out flag. induction bs as [| b bs IH]; simpl; intros out flag Hok.
  - reflexivity.
  - rewrite step_base by assumption.
    pose proof (step_ok (out, flag) b Hok) as Hok'.
    destruct (merge_step time fromTime (out, flag) b) as [out' flag']. simpl. now apply IH.
Qed.

Lemma fold_time (bs : list (Beat A D)) (acc : list (Beat A D) * bool) :
  (forall t d, fromTime t = Some d -> time d = t) -> acc_ok acc ->
  total_time time (fst (fold_left (merge_step time fromTime) bs acc))
  = total_time time (fst acc) + total_time time bs.
Proof.
  intros Hexact. revert acc. induction bs as [| b bs IH]; simpl; intros acc Hok.
  - unfold total_time. simpl. lia.
  - rewrite IH by now apply step_ok.
    assert (Hstep : total_time time (fst (merge_step time fromTime acc b))
                    = total_time time (fst acc) + time (duration b)).
    { unfold merge_step. destruct (sounding b); [unfold total_time; simpl; lia |].
      destruct (snd acc) eqn:Ef; [| unfold total_time; simpl; lia].
      destruct (fst acc) as [| lbeat out] eqn:Eo; [now destruct (Hok Ef) |].
      destruct (fromTime _) as [d |] eqn:Ed; unfold total_time; simpl;
        [rewrite (Hexact _ _ Ed) |]; lia. }
    rewrite Hstep. unfold total_time. simpl. lia.
Qed.

Lemma fold_sounding (bs : list (Beat A D)) (acc : list (Beat A D) * bool) :
  acc_ok acc ->
  map notes (filter sounding (fst (fold_left (merge_step time fromTime) bs acc)))
  = rev (map notes (filter sounding bs))
    ++ map notes (filter sounding (fst acc)).
Proof.
  revert acc. induction bs as [| b bs IH]; simpl; intros acc Hok.
  - reflexivity.
  - rewrite IH by now apply step_ok.
    assert (Hstep : map notes (filter sounding (fst (merge_step time fromTime acc b)))
                    = (if sounding b then [notes b] else [])
                      ++ map notes (filter sounding (fst acc))).
    { unfold merge_step. destruct (sounding b) eqn:Eb; [simpl; now rewrite Eb |].
      destruct (snd acc) eqn:Ef; [| simpl; now rewrite Eb].
      destruct (fst acc) as [| lbeat out] eqn:Eo; [now destruct (Hok Ef) |].
      destruct (fromTime _) as [d |]; simpl; [| now rewrite Eb].
      unfold sounding at 1. simpl. fold (sounding lbeat).
      now destruct (sounding lbeat). }
    rewrite Hstep. destruct (sounding b); simpl;
      [now rewrite <- app_assoc | reflexivity].
Qed.

Lemma fold_length (bs : list (Beat A D)) (acc : list (Beat A D) * bool) :
  (length (fst (fold_left (merge_step time fromTime) bs acc))
   <= length (fst acc) + length bs)%nat.
Proof.
  revert acc. induction bs as [| b bs IH]; simpl; intros acc; [lia |].
  etransitivity; [apply IH |].
  assert (length (fst (merge_step time fromTime acc b))
          <= S (length (fst acc)))%nat; [| lia].
  unfold merge_step. destruct (sounding b); [simpl; lia |].
  destruct (snd acc); [| simpl; lia].
  destruct (fst acc) as [| lbeat out] eqn:Eo; [rewrite Eo; simpl; lia |].
  destruct (fromTime _); simpl; lia.
Qed.

Lemma fold_all_sounding (bs : list (Beat A D)) (acc : list (Beat A D) * bool) :
  Forall (fun beat => sounding beat = true) bs ->
  fst (fold_left (merge_step time fromTime) bs acc) = rev bs ++ fst acc.
Proof.
  intros Hall. revert acc. induction Hall as [| b bs Hb _ IH]; intros acc; simpl.
  - reflexivity.
  - rewrite IH. unfold merge_step. rewrite Hb. simpl.
    now rewrite <- app_assoc.
Qed.

Lemma fold_leading_rests (rs : list (Beat A D)) (out : list (Beat A D)) :
  Forall (fun beat => sounding beat = false) rs ->
  fold_left (merge_step time fromTime) rs (out, false) = (rev rs ++ out, false).
Proof.
  intros Hall. revert out. induction Hall as [| r rs Hr _ IH]; intros out; simpl.
  - reflexivity.
  - unfold merge_step at 2. rewrite Hr. simpl. rewrite IH.
    now rewrite <- app_assoc.
Qed.

Lemma fold_extend (rs : list (Beat A D)) (s : Beat A D) (d : D)
  (out : list (Beat A D)) :
  Forall (fun beat => sounding beat = false) rs ->
  extend time fromTime (duration s) rs = Some d ->
  fold_left (merge_step time fromTime) rs (s :: out, true) = (set_duration s d :: out, true).
Proof.
  intros Hall. revert s. induction Hall as [| r rs Hr _ IH]; intros s; simpl.
  - intros E. inversion E. now destruct s.
  - unfold merge_step at 2. rewrite Hr. simpl.
    destruct (fromTime (time (duration s) + time (duration r))) as [d' |];
      [| discriminate].
    intros E. now rewrite (IH (set_duration s d') E).
Qed.

End FoldFacts.

(** ** Further properties of the Rest Coalescer *)

Lemma tick_exact (t d : Z) : tick_fromTime t = Some d -> tick_time d = t.
Proof.
  unfold tick_fromTime, tick_time. destruct (mem t tick_values); congruence.
Qed.

Section CoalescerProperties.

Variables A D : Type.
Variable time : D -> Z.
Variable fromTime : Z -> option D.

(** X1. When canonicalization returns a duration of exactly the time asked
    for, a voice lasts as long after the pass as before: the time of every
    dropped beat is in the beat it was merged into. *)
Theorem remove_rests_keeps_total_time (bs : list (Beat A D)) :
  (forall t d, fromTime t = Some d -> time d = t) ->
  total_time time (remove_rests_from_beats time fromTime bs)
  = total_time time bs.
Proof.
  intros Hexact. rewrite remove_rests_as_fold. unfold merge_rests.
  rewrite total_time_rev, fold_time; try assumption.
  - unfold total_time at 1. simpl. lia.
  - unfold acc_ok. simpl. discriminate.
Qed.

(** X2. The silent beats a voice begins with are all kept, unchanged, and
    the rest of the voice is rewritten as if they were not there. *)
Theorem remove_rests_leading_silence (rs bs : list (Beat A D)) :
  Forall (fun beat => sounding beat = false) rs ->
  remove_rests_from_beats time fromTime (rs ++ bs)
  = rs ++ remove_rests_from_beats time fromTime bs.
Proof.
  intros Hrs. rewrite !remove_rests_as_fold. unfold merge_rests.
  rewrite fold_left_app, fold_leading_rests by assumption.
  rewrite app_nil_r.
  assert (Hok : acc_ok (@nil (Beat A D), false))
    by (unfold acc_ok; simpl; discriminate).
  pose proof (fold_base A D time fromTime bs [] (rev rs) false Hok) as Hbase.
  simpl in Hbase. rewrite Hbase. simpl.
  now rewrite rev_app_distr, rev_involutive.
Qed.

(** X3. The pass never drops, adds or reorders a sounding beat and never
    touches the notes of one: the note lists of the sounding beats are the
    same, in the same order.  It never makes a voice longer. *)
Theorem remove_rests_keeps_sounding_beats (bs : list (Beat A D)) :
  map notes (filter sounding (remove_rests_from_beats time fromTime bs))
  = map notes (filter sounding bs) /\
  (length (remove_rests_from_beats time fromTime bs) <= length bs)%nat.
Proof.
  rewrite remove_rests_as_fold. unfold merge_rests. split.
  - rewrite filter_rev, map_rev, fold_sounding
      by (unfold acc_ok; simpl; discriminate).
    simpl. now rewrite app_nil_r, rev_involutive.
  - rewrite length_rev.
    apply (fold_length A D time fromTime bs ([], false)).
Qed.

Lemma remove_rests_split (bs1 bs2 : list (Beat A D)) (s : Beat A D) :
  sounding s = true ->
  remove_rests_from_beats time fromTime (bs1 ++ s :: bs2)
  = remove_rests_from_beats time fromTime bs1
    ++ remove_rests_from_beats time fromTime (s :: bs2).
Proof.
  intros Hs. rewrite !remove_rests_as_fold. unfold merge_rests.
  rewrite fold_left_app. simpl.
  destruct (fold_left (merge_step time fromTime) bs1 ([], false))
    as [out1 flag1].
  unfold merge_step at 2 4. rewrite Hs. simpl.
  assert (Hok : acc_ok ([s], true)) by (unfold acc_ok; simpl; discriminate).
  pose proof (fold_base A D time fromTime bs2 [s] out1 true Hok) as Hbase.
  simpl in Hbase. rewrite Hbase. simpl. now rewrite rev_app_distr.
Qed.

(** X4. A sounding beat is a barrier: what the pass does from it on does
    not depend on the beats before it, and the beats before it are rewritten
    as if the voice ended there. *)
Theorem remove_rests_sounding_barrier (bs1 bs2 : list (Beat A D))
  (s : Beat A D) :
  sounding s = true ->
  remove_rests_from_beats time fromTime (bs1 ++ s :: bs2)
  = remove_rests_from_beats time fromTime bs1
    ++ remove_rests_from_beats time fromTime (s :: bs2).
Proof. apply remove_rests_split. Qed.

(** X5. A sounding beat followed by silent beats whose running sums all
    canonicalize absorbs every one of them, however many there are; the
    next sounding beat starts afresh. *)
Theorem remove_rests_absorbs_run (s t : Beat A D) (rs bs : list (Beat A D))
  (d : D) :
  sounding s = true -> Forall (fun beat => sounding beat = false) rs ->
  extend time fromTime (duration s) rs = Some d -> sounding t = true ->
  remove_rests_from_beats time fromTime (s :: rs) = [set_duration s d] /\
  remove_rests_from_beats time fromTime (s :: rs ++ t :: bs)
  = set_duration s d :: remove_rests_from_beats time fromTime (t :: bs).
Proof.
  intros Hs Hrs Hd Ht.
  assert (Hrun : remove_rests_from_beats time fromTime (s :: rs)
                 = [set_duration s d]).
  { rewrite remove_rests_as_fold. unfold merge_rests. simpl.
    unfold merge_step at 2. rewrite Hs. simpl.
    now rewrite (fold_extend A D time fromTime rs s d [] Hrs Hd). }
  split; [exact Hrun |].
  change (s :: rs ++ t :: bs) with ((s :: rs) ++ t :: bs).
  now rewrite remove_rests_split, Hrun.
Qed.

(** X6. One pass is not always enough.  When the first rest cannot be merged
    into the sounding beat, the second rest is merged into the first; the
    sum of the two may then fit the sounding beat, and a second pass merges
    it. *)
Theorem remove_rests_second_pass (s r1 r2 : Beat A D) (d d' : D) :
  sounding s = true -> sounding r1 = false -> sounding r2 = false ->
  fromTime (time (duration s) + time (duration r1)) = None ->
  fromTime (time (duration r1) + time (duration r2)) = Some d ->
  fromTime (time (duration s) + time d) = Some d' ->
  remove_rests_from_beats time fromTime [s; r1; r2] = [s; set_duration r1 d] /\
  remove_rests_from_beats time fromTime
    (remove_rests_from_beats time fromTime [s; r1; r2])
  = [set_duration s d'].
Proof.
  intros Hs H1 H2 Hf Hd Hd'.
  assert (Hpass : remove_rests_from_beats time fromTime [s; r1; r2]
                  = [s; set_duration r1 d]).
  { rewrite remove_rests_as_fold. unfold merge_rests, merge_step. simpl.
    rewrite Hs, H1. simpl. rewrite Hf. simpl. rewrite H2. simpl.
    now rewrite Hd. }
  split; [exact Hpass |].
  rewrite Hpass, remove_rests_as_fold. unfold merge_rests, merge_step. simpl.
  rewrite Hs. simpl.
  assert (H1' : sounding (set_duration r1 d) = false) by exact H1.
  rewrite H1'. simpl. now rewrite Hd'.
Qed.

(** X7. A list of tracks in which no percussion track has a silent beat is
    returned as it is. *)
Theorem remove_rests_without_rests (tracks : list (Track A D)) :
  (forall track measure voice beat,
     In track tracks -> isPercussionTrack track = true ->
     In measure (measures track) -> In voice (voices measure) ->
     In beat (beats voice) -> sounding beat = true) ->
  remove_rests_from_tracks time fromTime tracks = tracks.
Proof.
  intros Hall. unfold remove_rests_from_tracks.
  rewrite <- (map_id tracks) at 2. apply map_ext_in. intros track Htrack.
  destruct (isPercussionTrack track) eqn:Ep; [| reflexivity].
  unfold remove_rests_from_track. destruct track as [flag ms]. simpl in *.
  f_equal. rewrite <- (map_id ms) at 2. apply map_ext_in. intros measure Hm.
  unfold remove_rests_from_measure. destruct measure as [vs]. simpl. f_equal.
  rewrite <- (map_id vs) at 2. apply map_ext_in. intros voice Hv.
  unfold remove_rests_from_voice. destruct voice as [bs]. simpl. f_equal.
  rewrite remove_rests_as_fold. unfold merge_rests.
  rewrite fold_all_sounding.
  - simpl. now rewrite app_nil_r, rev_involutive.
  - apply Forall_forall. intros beat Hb.
    apply (Hall (mkTrack flag ms) (mkMeasure vs) (mkVoice bs) beat); auto.
Qed.

End CoalescerProperties.

(** ** Further properties of the Note Standardizer *)

Lemma two_element_set (r : list Z) (a b : Z) :
  NoDup r -> length r = 2%nat -> In a r -> In b r -> a <> b ->
  forall y, In y r <-> y = a \/ y = b.
Proof.
  intros Hnd Hlen Ha Hb Hab y.
  destruct r as [| x [| z [| ? ?]]]; simpl in Hlen; try lia.
  inversion Hnd as [| ? ? Hx _]; subst. simpl in *.
  intuition congruence.
Qed.

Lemma place_tom_string {A : Type} (n : Note A) (nv : list Z) :
  In (value n) TOMS -> value n <> 38 ->
  string (_place_note n nv) = if tom_on_string_3 (value n) nv then 4 else 3.
Proof.
  intros Ht H38. unfold _place_note.
  assert (E36 : (value n =? 36) = false)
    by (apply Z.eqb_neq; intros E; rewrite E in Ht; simpl in Ht; lia).
  assert (E44 : (value n =? 44) = false)
    by (apply Z.eqb_neq; intros E; rewrite E in Ht; simpl in Ht; lia).
  assert (E49 : (value n =? 49) = false)
    by (apply Z.eqb_neq; intros E; rewrite E in Ht; simpl in Ht; lia).
  assert (Ec : mem (value n) CYMBALS = false).
  { apply mem_not_In. intros Hc. simpl in Ht, Hc. lia. }
  apply Z.eqb_neq in H38. apply mem_In in Ht.
  rewrite E36, H38, E44, E49, Ec, Ht.
  now destruct (tom_on_string_3 (value n) nv).
Qed.

Lemma existsb_same_elements {X : Type} (p : X -> bool) (l l' : list X) :
  (forall x, In x l <-> In x l') -> existsb p l = existsb p l'.
Proof.
  intros Hsame. apply eq_true_iff_eq. rewrite !existsb_exists.
  split; intros (x & Hx & Hp); exists x; split; try assumption; now apply Hsame.
Qed.

(** X8. A note of a code in [TOMS] other than the snare 38 is placed on
    string 4 exactly when the beat holds a lower code of [TOMS] or holds
    38, and on string 3 otherwise. *)
Theorem place_other_tom (A : Type) (n : Note A) (note_values : list Z) :
  In (value n) TOMS -> value n <> 38 ->
  (string (_place_note n note_values) = 4 <->
   (exists w, In w note_values /\ In w TOMS /\ w < value n) \/
   In 38 note_values) /\
  (string (_place_note n note_values) = 3 <->
   ~ ((exists w, In w note_values /\ In w TOMS /\ w < value n) \/
      In 38 note_values)).
Proof.
  intros Ht H38.
  assert (Hiff : tom_on_string_3 (value n) note_values = true <->
                 (exists w, In w note_values /\ In w TOMS /\ w < value n) \/
                 In 38 note_values).
  { rewrite tom_on_string_3_iff. split.
    - intros (w & Hw & Tw & [Hlt | ->]); [left; now exists w | now right].
    - intros [(w & Hw & Tw & Hlt) | H]; [exists w; tauto |].
      exists 38. simpl. tauto. }
  rewrite (place_tom_string n note_values Ht H38), <- Hiff.
  destruct (tom_on_string_3 (value n) note_values); split; split;
    intros; try reflexivity; try discriminate; try lia; congruence.
Qed.

(** X9. The string of a note depends on the codes in the beat only, not on
    the order in which the set of codes is iterated or built. *)
Theorem place_reads_code_set (A : Type) (n : Note A) (nv nv' : list Z) :
  (forall x, In x nv <-> In x nv') -> _place_note n nv = _place_note n nv'.
Proof.
  intros Hsame. unfold _place_note, cymbal_on_string_1, tom_on_string_3.
  now rewrite !(existsb_same_elements _ nv nv' Hsame).
Qed.

Lemma place_unrecognized {A : Type} (n : Note A) (nv : list Z) :
  recognized (value n) = false -> _place_note n nv = n.
Proof.
  unfold recognized, _place_note. intros Hrec.
  apply orb_false_iff in Hrec. destruct Hrec as [Hrec Et].
  apply orb_false_iff in Hrec. destruct Hrec as [Hrec Ec].
  apply orb_false_iff in Hrec. destruct Hrec as [Hrec E44].
  apply orb_false_iff in Hrec. destruct Hrec as [E36 E38].
  rewrite E36, E38, E44, Ec, Et.
  destruct (value n =? 49) eqn:E49; [| reflexivity].
  apply Z.eqb_eq in E49. rewrite E49 in Ec. discriminate.
Qed.

(** X10. A note of a code with a rule is put on one of the strings 1 to 6;
    a note of any other code is returned as it is. *)
Theorem place_string_range (A : Type) (n : Note A) (note_values : list Z) :
  (recognized (value n) = true ->
   1 <= string (_place_note n note_values) <= 6) /\
  (recognized (value n) = false -> _place_note n note_values = n).
Proof.
  split.
  - intros Hrec.
    destruct (place_lane n note_values Hrec)
      as [[_ S] | [[_ S] | [(_ & _ & [[S _] | [S _]])
                           | (_ & [[S _] | [S _]])]]]; rewrite S; lia.
  - apply place_unrecognized.
Qed.

Section StandardizerProperties.

Variable A : Type.
Variable set_iter : list Z -> list Z.
Hypothesis set_iter_spec : set_iter_ok set_iter.

Lemma trim_under_cap_id (fuel : nat) (ns : list (Note A)) :
  (distinct_hand_codes ns <= 2)%nat ->
  _trim_note_values set_iter fuel ns = Some ns.
Proof.
  intros Hcap. rewrite <- (iter_hand_codes set_iter ns set_iter_spec) in Hcap.
  unfold _trim_note_values. cbv zeta. fold is_hand.
  assert (B : (2 <? length (filter is_hand (set_iter (map value ns))))%nat
              = false) by (apply Nat.ltb_ge; lia).
  rewrite B. unfold bind. f_equal. apply forallb_filter_id, forallb_forall.
  intros n Hn.
  rewrite mem_update, !mem_filter, (mem_iter set_iter _ _ set_iter_spec).
  assert (Hv : mem (value n) (map value ns) = true)
    by (apply mem_In; now apply in_map).
  rewrite Hv. unfold is_hand. now destruct (mem (value n) HAND_NOTES).
Qed.

(** X11. A beat with at most two distinct hand codes comes out of the trim
    as it went in; the fill loop is not entered, so no fuel is needed. *)
Theorem trim_under_cap (fuel : nat) (ns : list (Note A)) :
  (distinct_hand_codes ns <= 2)%nat ->
  _trim_note_values set_iter fuel ns = Some ns.
Proof. apply trim_under_cap_id. Qed.

(** X12. Over the cap, when the beat holds both the snare 38 and the crash
    cymbal 49, the hand notes kept are exactly those two, whatever else the
    beat holds and in whatever order the codes are iterated. *)
Theorem trim_snare_and_crash_first (fuel : nat) (ns : list (Note A)) :
  (2 <= fuel)%nat -> (2 < distinct_hand_codes ns)%nat ->
  In 38 (map value ns) -> In 49 (map value ns) ->
  _trim_note_values set_iter fuel ns
  = Some (filter (fun n => (value n =? 38) || (value n =? 49)
                           || negb (is_hand (value n))) ns).
Proof.
  intros Hfuel Hbig H38 H49.
  rewrite <- (iter_hand_codes set_iter ns set_iter_spec) in Hbig.
  destruct (trim_over_cap A set_iter set_iter_spec fuel ns Hfuel Hbig)
    as (r & Heq & Hnd & Hlen & _ & Hr38 & Hr49).
  rewrite Heq. f_equal. apply filter_ext. intros n. f_equal.
  apply eq_true_iff_eq.
  rewrite mem_In, orb_true_iff, !Z.eqb_eq.
  apply (two_element_set r 38 49); auto. lia.
Qed.

(** What a trim always keeps, and that it never empties a beat. *)
Lemma trim_keeps (fuel : nat) (ns : list (Note A)) :
  (2 <= fuel)%nat ->
  exists ns2,
    _trim_note_values set_iter fuel ns = Some ns2 /\
    (forall n, In n ns2 -> In n ns) /\
    (forall n, In n ns ->
               value n = 38 \/ value n = 49 \/ ~ In (value n) HAND_NOTES ->
               In n ns2) /\
    (ns <> [] -> ns2 <> []).
Proof.
  intros Hfuel.
  destruct (le_lt_dec (distinct_hand_codes ns) 2) as [Hcap | Hbig].
  - exists ns. split; [now apply trim_under_cap_id |]. auto.
  - rewrite <- (iter_hand_codes set_iter ns set_iter_spec) in Hbig.
    destruct (trim_over_cap A set_iter set_iter_spec fuel ns Hfuel Hbig)
      as (r & Heq & Hnd & Hlen & Hfrom & Hr38 & Hr49).
    eexists. split; [exact Heq |].
    split; [intros n Hn; now apply filter_In in Hn |].
    assert (Hkeep : forall n, In n ns ->
               value n = 38 \/ value n = 49 \/ ~ In (value n) HAND_NOTES ->
               In n (filter (fun note => mem (value note) r
                                         || negb (is_hand (value note))) ns)).
    { intros n Hn Hv. apply filter_In. split; [assumption |].
      apply orb_true_iff.
      destruct Hv as [E | [E | Hv]].
      - left. apply mem_In. rewrite E. apply Hr38. rewrite <- E. now apply in_map.
      - left. apply mem_In. rewrite E. apply Hr49. rewrite <- E. now apply in_map.
      - right. now apply negb_true_iff, mem_not_In. }
    split; [exact Hkeep |].
    intros _ Hempty.
    assert (Hreal : exists y, In y r /\ In y (map value ns)).
    { destruct r as [| a [| b [| ? ?]]]; simpl in Hlen; try lia.
      destruct (Hfrom a (or_introl eq_refl)) as [[Ha _] | (Ea & _ & Hno)].
      - exists a. simpl. tauto.
      - destruct (Hfrom b (or_intror (or_introl eq_refl)))
          as [[Hb _] | (Eb & _ & _)].
        + exists b. simpl. tauto.
        + inversion Hnd as [| ? ? Hab _]; subst. simpl in Hab. tauto. }
    destruct Hreal as (y & Hy & Hin).
    apply in_map_iff in Hin. destruct Hin as (n & <- & Hn).
    assert (Hn2 : In n (filter (fun note => mem (value note) r
                                            || negb (is_hand (value note))) ns)).
    { apply filter_In. split; [assumption |]. apply mem_In in Hy.
      now rewrite Hy. }
    rewrite Hempty in Hn2. contradiction.
Qed.

End StandardizerProperties.

Lemma find_unique {A : Type} (l : list (Note A)) (a : Note A) :
  NoDup (map value l) -> In a l ->
  find (fun x => value x =? value a) l = Some a.
Proof.
  induction l as [| x l IH]; simpl; intros Hnd Ha; [contradiction |].
  inversion Hnd as [| ? ? Hx Hl]; subst.
  destruct Ha as [-> | Ha].
  - now rewrite Z.eqb_refl.
  - destruct (value x =? value a) eqn:E; [| now apply IH].
    apply Z.eqb_eq in E. exfalso. apply Hx. rewrite E. now apply in_map.
Qed.

Lemma dedup_In {A : Type} (l : list (Note A)) (n : Note A) :
  In n (dedup_by_value l) -> In n l.
Proof.
  intros Hn.
  pose proof (find_unique (dedup_by_value l) n (dedup_NoDup A l) Hn) as Hf.
  rewrite dedup_find in Hf. apply find_some in Hf. destruct Hf as [Hf _].
  now apply in_rev.
Qed.

Lemma dedup_length {A : Type} (l : list (Note A)) :
  (length (dedup_by_value l) <= length l)%nat.
Proof.
  rewrite <- (length_map value (dedup_by_value l)), <- (length_map value l).
  apply NoDup_incl_length; [apply dedup_NoDup |].
  intros v Hv. now apply dedup_In_value.
Qed.

Lemma dedup_last_In {A : Type} (l1 l2 : list (Note A)) (n : Note A) :
  (forall n', In n' l2 -> value n' <> value n) ->
  In n (dedup_by_value (l1 ++ n :: l2)).
Proof.
  intros Hlast.
  assert (Hf : find (fun x => value x =? value n)
                    (dedup_by_value (l1 ++ n :: l2)) = Some n).
  { rewrite dedup_find, rev_app_distr. simpl. rewrite <- app_assoc. simpl.
    apply find_skip.
    - intros y Hy. apply in_rev in Hy. apply Z.eqb_neq. now apply Hlast.
    - apply Z.eqb_refl. }
  apply find_some in Hf. tauto.
Qed.

Lemma filter_filter {X : Type} (p q : X -> bool) (l : list X) :
  filter p (filter q l) = filter (fun x => q x && p x) l.
Proof.
  induction l as [| x l IH]; simpl; [reflexivity |].
  destruct (q x); simpl; [| exact IH]. destruct (p x); now rewrite IH.
Qed.

Lemma update_first_seen (s l : list Z) :
  update s l = s ++ filter (fun y => negb (mem y s)) (first_seen l).
Proof.
  unfold update. revert s. induction l as [| x l IH]; intros s; simpl.
  - now rewrite app_nil_r.
  - rewrite IH. unfold add. destruct (mem x s) eqn:E; simpl.
    + f_equal. rewrite filter_filter. apply filter_ext. intros y.
      destruct (y =? x) eqn:Eyx; simpl; [| reflexivity].
      apply Z.eqb_eq in Eyx. subst y. now rewrite E.
    + rewrite <- app_assoc. simpl. do 2 f_equal.
      rewrite filter_filter. apply filter_ext. intros y.
      unfold mem. rewrite existsb_app. simpl.
      rewrite orb_false_r, negb_orb. apply andb_comm.
Qed.

(** X13. After deduplication the notes stand in the order in which their
    codes first occur in the beat, one note per code. *)
Theorem dedup_first_seen_order (A : Type) (ns : list (Note A)) :
  map value (dedup_by_value ns) = first_seen (map value ns).
Proof.
  rewrite dedup_values, update_first_seen. simpl.
  apply forallb_filter_id, forallb_forall. reflexivity.
Qed.

Section PipelineProperties.

Variable A : Type.
Variable set_iter : list Z -> list Z.
Hypothesis set_iter_spec : set_iter_ok set_iter.

(** The trimmed notes behind a standardized beat, and what is sure to be
    among them. *)
Lemma standardize_notes_kept (fuel : nat) (ns : list (Note A)) :
  (2 <= fuel)%nat ->
  exists ns2,
    standardize_notes set_iter fuel ns
      = Some (map (fun note => _place_note note (set_iter (map value ns2))) ns2) /\
    standard ns2 /\
    (forall n, In n ns2 -> In n (dedup_by_value (map _simplify_note ns))) /\
    (forall n, In n (dedup_by_value (map _simplify_note ns)) ->
               value n = 38 \/ value n = 49 \/ ~ In (value n) HAND_NOTES ->
               In n ns2) /\
    (ns <> [] -> ns2 <> []).
Proof.
  intros Hfuel. destruct ns as [| n0 ns0].
  - exists []. split; [reflexivity |].
    split; [split; [constructor |];
            split; [unfold hand_count; simpl; lia | intros n []] |].
    split; [intros n [] |]. split; [intros n [] | congruence].
  - set (ns := n0 :: ns0).
    set (ns1 := dedup_by_value (map _simplify_note ns)).
    destruct (trim_standard A set_iter set_iter_spec fuel ns1 Hfuel
                (dedup_NoDup A _)) as (ns2 & Heq & Hnd & Hcap & Hsub).
    destruct (trim_keeps A set_iter set_iter_spec fuel ns1 Hfuel)
      as (ns2' & Heq' & _ & Hkeep & Hne).
    rewrite Heq in Heq'. inversion Heq'; subst ns2'.
    exists ns2. split.
    { unfold standardize_notes. fold ns. fold ns1. now rewrite Heq. }
    split.
    { split; [assumption |]. split; [assumption |].
      intros n Hn. apply Hsub, dedup_In, in_map_iff in Hn.
      destruct Hn as (m & <- & _). apply simplify_value. }
    split; [assumption |]. split; [assumption |].
    intros _. apply Hne. intros Hempty.
    assert (Hv : In (value (_simplify_note n0)) (map value ns1)).
    { apply dedup_In_value. simpl. now left. }
    rewrite Hempty in Hv. contradiction.
Qed.

(** X14. Bass drum, snare and first crash cymbal are never lost: a beat
    with a note of code 35 or 36 comes out with a note of code 36 on string
    5, one with 38 or 40 with a note of code 38 on string 3, and one with 49
    with a note of code 49 on string 1. *)
Theorem standardize_keeps_bass_snare_crash (fuel : nat) (ns : list (Note A)) :
  (2 <= fuel)%nat ->
  exists out,
    standardize_notes set_iter fuel ns = Some out /\
    ((exists n, In n ns /\ (value n = 35 \/ value n = 36)) ->
     exists m, In m out /\ value m = 36 /\ string m = 5) /\
    ((exists n, In n ns /\ (value n = 38 \/ value n = 40)) ->
     exists m, In m out /\ value m = 38 /\ string m = 3) /\
    ((exists n, In n ns /\ value n = 49) ->
     exists m, In m out /\ value m = 49 /\ string m = 1).
Proof.
  intros Hfuel.
  destruct (standardize_notes_kept fuel ns Hfuel)
    as (ns2 & Heq & _ & _ & Hkeep & _).
  eexists. split; [exact Heq |].
  assert (Hcode : forall c s,
             (c = 36 /\ s = 5) \/ (c = 38 /\ s = 3) \/ (c = 49 /\ s = 1) ->
             (exists n, In n ns /\ value (_simplify_note n) = c) ->
             exists m,
               In m (map (fun note => _place_note note (set_iter (map value ns2)))
                         ns2) /\ value m = c /\ string m = s).
  { intros c s Hc (n & Hn & Hv).
    assert (Hin : In c (map value (dedup_by_value (map _simplify_note ns)))).
    { apply dedup_In_value, in_map_iff. exists (_simplify_note n).
      split; [assumption | now apply in_map]. }
    apply in_map_iff in Hin. destruct Hin as (m0 & Hm0 & Hin).
    assert (Hin2 : In m0 ns2).
    { apply Hkeep; [assumption |]. rewrite Hm0.
      destruct Hc as [[-> _] | [[-> _] | [-> _]]]; auto.
      right. right. unfold HAND_NOTES, TOMS, CYMBALS. simpl.
      intuition discriminate. }
    exists (_place_note m0 (set_iter (map value ns2))).
    split; [now apply (in_map (fun note => _place_note note _)) |].
    split; [now rewrite place_value |].
    unfold _place_note. rewrite Hm0.
    destruct Hc as [[-> ->] | [[-> ->] | [-> ->]]]; reflexivity. }
  split; [| split]; intros (n & Hn & Hv).
  - apply (Hcode 36 5); [tauto |]. exists n. split; [assumption |].
    unfold _simplify_note. destruct Hv as [E | E]; rewrite E; simpl; auto.
  - apply (Hcode 38 3); [tauto |]. exists n. split; [assumption |].
    unfold _simplify_note. destruct Hv as [E | E]; rewrite E; simpl; auto.
  - apply (Hcode 49 1); [tauto |]. exists n. split; [assumption |].
    unfold _simplify_note. rewrite Hv. simpl. exact Hv.
Qed.

(** X15. The steps invent nothing: every note of the standardized beat is a
    note of the beat, simplified and placed; the beat has no more notes than
    before, no two of one code, and none of code 35, 40 or 59.  A beat with
    notes keeps at least one. *)
Theorem standardize_invents_nothing (fuel : nat) (ns : list (Note A)) :
  (2 <= fuel)%nat ->
  exists out,
    standardize_notes set_iter fuel ns = Some out /\
    (forall m, In m out ->
       exists n, In n ns /\
                 m = _place_note (_simplify_note n) (set_iter (map value out))) /\
    (length out <= length ns)%nat /\
    NoDup (map value out) /\
    (forall m, In m out -> value m <> 35 /\ value m <> 40 /\ value m <> 59) /\
    (ns <> [] -> out <> []).
Proof.
  intros Hfuel.
  destruct (standardize_notes_kept fuel ns Hfuel)
    as (ns2 & Heq & Hstd & Hsub & _ & Hne).
  eexists. split; [exact Heq |].
  assert (Hval : map value
                   (map (fun note => _place_note note (set_iter (map value ns2)))
                        ns2) = map value ns2).
  { rewrite map_map. apply map_ext. intros n. apply place_value. }
  destruct (standard_placed A ns2 (set_iter (map value ns2)) Hstd)
    as (Hnd & _ & Hcan).
  split; [| split; [| split; [exact Hnd | split; [exact Hcan |]]]].
  - intros m Hm. apply in_map_iff in Hm. destruct Hm as (m0 & <- & Hm0).
    apply Hsub, dedup_In, in_map_iff in Hm0. destruct Hm0 as (n & <- & Hn).
    exists n. split; [assumption |]. now rewrite Hval.
  - rewrite length_map. destruct Hstd as (Hnd2 & _ & _).
    etransitivity; [| etransitivity; [apply (dedup_length (map _simplify_note ns)) |]];
      [| now rewrite length_map].
    rewrite <- (length_map value ns2),
            <- (length_map value (dedup_by_value (map _simplify_note ns))).
    apply NoDup_incl_length; [assumption |].
    intros v Hv. apply in_map_iff in Hv. destruct Hv as (n & <- & Hn).
    apply in_map. now apply Hsub.
  - intros Hns Hout. apply (Hne Hns). now apply map_eq_nil in Hout.
Qed.

(** X16. A note of a code outside the tables (and not 35 or 36), the last of
    its code in the beat, goes through the three steps untouched: the
    standardized beat holds that very note, code, string and all. *)
Theorem standardize_unknown_code_untouched (fuel : nat)
  (l1 l2 : list (Note A)) (n : Note A) :
  (2 <= fuel)%nat ->
  ~ In (value n) HAND_NOTES -> value n <> 35 -> value n <> 36 ->
  (forall n', In n' l2 -> value (_simplify_note n') <> value n) ->
  exists out,
    standardize_notes set_iter fuel (l1 ++ n :: l2) = Some out /\ In n out.
Proof.
  intros Hfuel Hhand H35 H36 Hlast.
  assert (Hs : _simplify_note n = n).
  { apply simplify_canonical; try assumption; intros E; apply Hhand;
      rewrite E; apply mem_In; reflexivity. }
  destruct (standardize_notes_kept fuel (l1 ++ n :: l2) Hfuel)
    as (ns2 & Heq & _ & _ & Hkeep & _).
  eexists. split; [exact Heq |].
  assert (Hin : In n ns2).
  { apply Hkeep; [| tauto].
    rewrite map_app. simpl. rewrite Hs. apply dedup_last_In.
    intros n' Hn'. apply in_map_iff in Hn'. destruct Hn' as (m & <- & Hm).
    now apply Hlast. }
  apply in_map_iff. exists n. split; [| assumption].
  apply place_unrecognized.
  unfold recognized.
  assert (Et : mem (value n) TOMS = false).
  { apply mem_not_In. intros H. apply Hhand. now apply TOMS_hand. }
  assert (Ec : mem (value n) CYMBALS = false).
  { apply mem_not_In. intros H. apply Hhand. now apply CYMBALS_hand. }
  assert (E38 : (value n =? 38) = false).
  { apply Z.eqb_neq. intros E. rewrite E in Et. discriminate. }
  assert (E44 : (value n =? 44) = false).
  { apply Z.eqb_neq. intros E. rewrite E in Ec. discriminate. }
  apply Z.eqb_neq in H36. now rewrite H36, E38, E44, Ec, Et.
Qed.

End PipelineProperties.

Lemma mapM_Forall2 {X Y : Type} (f : X -> option Y) (R : X -> Y -> Prop)
  (l : list X) :
  (forall x, In x l -> exists y, f x = Some y /\ R x y) ->
  exists ys, mapM f l = Some ys /\ Forall2 R l ys.
Proof.
  induction l as [| x l IH]; simpl; intros H.
  - exists []. split; [reflexivity | constructor].
  - destruct (H x) as (y & Hy & Rxy); [now left |].
    destruct IH as (ys & Hys & Rys); [intros z Hz; apply H; now right |].
    exists (y :: ys). rewrite Hy, Hys. split; [reflexivity | now constructor].
Qed.

Lemma Forall2_map_eq {X Y W : Type} (R : X -> Y -> Prop) (g : Y -> W)
  (h : X -> W) (l : list X) (l' : list Y) :
  Forall2 R l l' -> (forall x y, R x y -> g y = h x) -> map g l' = map h l.
Proof.
  intros HR Hgh. induction HR as [| x y l l' Rxy _ IH]; simpl.
  - reflexivity.
  - now rewrite IH, (Hgh x y Rxy).
Qed.

Lemma Forall2_nth_error {X Y : Type} (R : X -> Y -> Prop) (l : list X)
  (l' : list Y) (i : nat) (x : X) :
  Forall2 R l l' -> nth_error l i = Some x ->
  exists y, nth_error l' i = Some y /\ R x y.
Proof.
  intros HR. revert i. induction HR as [| x0 y0 l l' Rxy _ IH]; intros [| i];
    simpl; try discriminate.
  - intros E. inversion E; subst. now exists y0.
  - apply IH.
Qed.

Section SkeletonProperties.

Variables A D : Type.
Variable set_iter : list Z -> list Z.
Hypothesis set_iter_spec : set_iter_ok set_iter.

(** X17. Under the cap the result needs neither fuel nor a particular
    iteration order: it is the simplified notes, one per code, each placed
    by the codes of the beat. *)
Theorem standardize_under_cap (fuel : nat) (ns : list (Note A)) :
  (distinct_hand_codes (dedup_by_value (map _simplify_note ns)) <= 2)%nat ->
  standardize_notes set_iter fuel ns
  = Some (map (fun note =>
                 _place_note note
                   (map value (dedup_by_value (map _simplify_note ns))))
              (dedup_by_value (map _simplify_note ns))).
Proof.
  intros Hcap. destruct ns as [| n0 ns0]; [reflexivity |].
  unfold standardize_notes.
  set (ns1 := dedup_by_value (map _simplify_note (n0 :: ns0))) in *.
  assert (Htrim : _trim_note_values set_iter fuel ns1 = Some ns1).
  { unfold _trim_note_values. cbv zeta. fold is_hand.
    rewrite <- (iter_hand_codes set_iter ns1 set_iter_spec) in Hcap.
    assert (B : (2 <? length (filter is_hand (set_iter (map value ns1))))%nat
                = false) by (apply Nat.ltb_ge; lia).
    rewrite B. unfold bind. f_equal.
    apply forallb_filter_id, forallb_forall. intros n Hn.
    rewrite mem_update, !mem_filter, (mem_iter set_iter _ _ set_iter_spec).
    assert (Hv : mem (value n) (map value ns1) = true)
      by (apply mem_In; now apply in_map).
    rewrite Hv. unfold is_hand. now destruct (mem (value n) HAND_NOTES). }
  rewrite Htrim. unfold bind. f_equal. apply map_ext. intros n.
  unfold _place_note, cymbal_on_string_1, tom_on_string_3.
  now rewrite !(existsb_same_elements _ (set_iter (map value ns1))
                  (map value ns1) (proj2 (set_iter_spec (map value ns1)))).
Qed.

Lemma standardize_beat_skeleton (fuel : nat) (beat : Beat A D) :
  (2 <= fuel)%nat ->
  exists beat',
    standardize_beat set_iter fuel beat = Some beat' /\
    duration beat' = duration beat /\ sounding beat' = sounding beat.
Proof.
  intros Hfuel. unfold standardize_beat.
  destruct (standardize_notes_kept A set_iter set_iter_spec fuel (notes beat)
              Hfuel) as (ns2 & Heq & _ & Hsub & _ & Hne).
  rewrite Heq. unfold bind. eexists. split; [reflexivity |].
  split; [reflexivity |]. unfold sounding. simpl.
  destruct (notes beat) as [| n0 ns0] eqn:En.
  - destruct ns2 as [| m ns2]; [reflexivity |].
    destruct (Hsub m (or_introl eq_refl)).
  - destruct ns2 as [| m ns2]; [| reflexivity].
    exfalso. now apply Hne.
Qed.

(** X18. [standardize] returns for every list of tracks, and keeps its
    skeleton: as many tracks, measures, voices and beats, every beat with
    its duration, sounding if and only if it was; a track that is not a
    percussion track is returned as it is. *)
Theorem standardize_keeps_skeleton (fuel : nat) (tracks : list (Track A D)) :
  (2 <= fuel)%nat ->
  exists tracks',
    standardize_tracks set_iter fuel tracks = Some tracks' /\
    map isPercussionTrack tracks' = map isPercussionTrack tracks /\
    map track_durations tracks' = map track_durations tracks /\
    map track_sounding tracks' = map track_sounding tracks /\
    (forall i track,
       nth_error tracks i = Some track -> isPercussionTrack track = false ->
       nth_error tracks' i = Some track).
Proof.
  intros Hfuel.
  assert (Hvoice : forall voice : Voice A D, exists voice',
             standardize_voice set_iter fuel voice = Some voice' /\
             map duration (beats voice') = map duration (beats voice) /\
             map sounding (beats voice') = map sounding (beats voice)).
  { intros voice. unfold standardize_voice.
    destruct (mapM_Forall2 (standardize_beat set_iter fuel)
                (fun b b' => duration b' = duration b /\ sounding b' = sounding b)
                (beats voice)) as (bs & Hbs & Rbs).
    { intros b _. apply standardize_beat_skeleton, Hfuel. }
    rewrite Hbs. unfold bind. eexists. split; [reflexivity |]. simpl.
    split; apply (Forall2_map_eq _ _ _ _ _ Rbs); tauto. }
  assert (Hmeasure : forall measure : Measure A D, exists measure',
             standardize_measure set_iter fuel measure = Some measure' /\
             map (fun v => map duration (beats v)) (voices measure')
             = map (fun v => map duration (beats v)) (voices measure) /\
             map (fun v => map sounding (beats v)) (voices measure')
             = map (fun v => map sounding (beats v)) (voices measure)).
  { intros measure. unfold standardize_measure.
    destruct (mapM_Forall2 (standardize_voice set_iter fuel)
                (fun v v' =>
                   map duration (beats v') = map duration (beats v) /\
                   map sounding (beats v') = map sounding (beats v))
                (voices measure)) as (vs & Hvs & Rvs).
    { intros v _. apply Hvoice. }
    rewrite Hvs. unfold bind. eexists. split; [reflexivity |]. simpl.
    split; apply (Forall2_map_eq _ _ _ _ _ Rvs); tauto. }
  assert (Htrack : forall track : Track A D, exists track',
             standardize_track set_iter fuel track = Some track' /\
             isPercussionTrack track' = isPercussionTrack track /\
             track_durations track' = track_durations track /\
             track_sounding track' = track_sounding track).
  { intros track. unfold standardize_track.
    destruct (mapM_Forall2 (standardize_measure set_iter fuel)
                (fun m m' =>
                   map (fun v => map duration (beats v)) (voices m')
                   = map (fun v => map duration (beats v)) (voices m) /\
                   map (fun v => map sounding (beats v)) (voices m')
                   = map (fun v => map sounding (beats v)) (voices m))
                (measures track)) as (ms & Hms & Rms).
    { intros m _. apply Hmeasure. }
    rewrite Hms. unfold bind. eexists. split; [reflexivity |]. simpl.
    split; [reflexivity |].
    unfold track_durations, track_sounding. simpl.
    split; apply (Forall2_map_eq _ _ _ _ _ Rms); tauto. }
  unfold standardize_tracks.
  destruct (mapM_Forall2
              (fun track => if isPercussionTrack track
                            then standardize_track set_iter fuel track
                            else Some track)
              (fun t t' =>
                 isPercussionTrack t' = isPercussionTrack t /\
                 track_durations t' = track_durations t /\
                 track_sounding t' = track_sounding t /\
                 (isPercussionTrack t = false -> t' = t))
              tracks) as (ts & Hts & Rts).
  { intros t _. destruct (isPercussionTrack t) eqn:Ep.
    - destruct (Htrack t) as (t' & Ht' & Hp & Hd & Hs).
      exists t'. rewrite Ep in Hp. repeat split; try assumption. discriminate.
    - exists t. repeat split; auto. }
  exists ts. split; [exact Hts |].
  split; [apply (Forall2_map_eq _ _ _ _ _ Rts); tauto |].
  split; [apply (Forall2_map_eq _ _ _ _ _ Rts); tauto |].
  split; [apply (Forall2_map_eq _ _ _ _ _ Rts); tauto |].
  intros i track Hi Hp.
  destruct (Forall2_nth_error _ _ _ i track Rts Hi) as (t' & Ht' & _ & _ & _ & Hsame).
  now rewrite Ht', (Hsame Hp).
Qed.

End SkeletonProperties.

(** ** The fill loop, turn by turn *)

Lemma fill_loop_more_fuel (nv : list Z) (fuel : nat) :
  forall (rv r : list Z) (fuel' : nat),
    fill_loop fuel nv rv = Some r -> (fuel <= fuel')%nat ->
    fill_loop fuel' nv rv = Some r.
Proof.
  induction fuel as [| fuel IH]; intros rv r fuel' Hrun Hle;
    rewrite fill_loop_unfold in Hrun; rewrite fill_loop_unfold;
    destruct (length rv <? 2)%nat; try assumption; try discriminate.
  destruct fuel' as [| fuel']; [lia |]. apply (IH _ _ _ Hrun). lia.
Qed.

Lemma try_append_pick (tbl nv rv : list Z) :
  (exists c, In c nv /\ In c tbl /\ ~ In c rv) ->
  exists v, In v nv /\ In v tbl /\ ~ In v rv /\
            try_append true tbl nv rv = rv ++ [v].
Proof.
  intros (c & Hn & Ht & Hr).
  destruct (try_append_cases true tbl nv rv)
    as [[_ [Hf | Hf]] | (v & _ & Hv & Hvt & Hvr & E)].
  - discriminate.
  - rewrite (candidate_found tbl nv rv c) in Hf by assumption. discriminate.
  - now exists v.
Qed.

Lemma try_append_none (tbl nv rv : list Z) :
  (forall c, In c nv -> In c tbl -> In c rv) ->
  try_append true tbl nv rv = rv.
Proof.
  intros Hnone.
  destruct (try_append_cases true tbl nv rv)
    as [[E _] | (v & _ & Hv & Hvt & Hvr & _)]; [exact E |].
  exfalso. apply Hvr. now apply Hnone.
Qed.

Lemma tables_disjoint (v : Z) : In v TOMS -> In v CYMBALS -> False.
Proof. unfold TOMS, CYMBALS. simpl. lia. Qed.

Section TrimOrder.

Variable A : Type.
Variable set_iter : list Z -> list Z.
Hypothesis set_iter_spec : set_iter_ok set_iter.

(** Over the cap, the trim is the fill loop run from the priority codes. *)
Lemma trim_over_cap_eq (fuel : nat) (ns : list (Note A)) :
  (2 < distinct_hand_codes ns)%nat ->
  _trim_note_values set_iter fuel ns
  = match fill_loop fuel (set_iter (map value ns))
                    (priority_codes (map value ns)) with
    | Some r => Some (filter (fun note => mem (value note) r
                                          || negb (is_hand (value note))) ns)
    | None => None
    end.
Proof.
  intros Hbig. rewrite <- (iter_hand_codes set_iter ns set_iter_spec) in Hbig.
  unfold _trim_note_values, priority_codes. cbv zeta. fold is_hand.
  assert (B : (2 <? length (filter is_hand (set_iter (map value ns))))%nat
              = true) by now apply Nat.ltb_lt.
  rewrite B, !(mem_iter set_iter _ _ set_iter_spec).
  destruct (fill_loop fuel _ _) as [r |]; [| reflexivity].
  unfold bind. f_equal. apply filter_ext_in. intros n Hn.
  rewrite mem_update, mem_filter, (mem_iter set_iter _ _ set_iter_spec).
  assert (Hv : mem (value n) (map value ns) = true)
    by (apply mem_In; now apply in_map).
  now rewrite Hv, andb_true_r.
Qed.

(** X19. The loop of the trim always ends, within two turns: the trim
    returns with any fuel from 2 on, and what it returns does not depend on
    the fuel. *)
Theorem trim_ends_within_two_turns (fuel : nat) (ns : list (Note A)) :
  (2 <= fuel)%nat ->
  exists ns2,
    _trim_note_values set_iter 2 ns = Some ns2 /\
    _trim_note_values set_iter fuel ns = Some ns2.
Proof.
  intros Hfuel.
  destruct (le_lt_dec (distinct_hand_codes ns) 2) as [Hcap | Hbig].
  - exists ns. split; now apply trim_under_cap_id.
  - destruct (trim_over_cap A set_iter set_iter_spec 2 ns (le_n 2)) as (r & Heq & _).
    { now rewrite (iter_hand_codes set_iter ns set_iter_spec). }
    eexists. split; [exact Heq |].
    rewrite trim_over_cap_eq in Heq |- * by assumption.
    destruct (fill_loop 2 (set_iter (map value ns))
                (priority_codes (map value ns))) as [r2 |] eqn:E2;
      [| discriminate].
    now rewrite (fill_loop_more_fuel _ 2 _ r2 fuel E2 Hfuel).
Qed.

(** X20. The pair rule: over the cap, in a beat without snare 38 and without
    the crash cymbals 49 and 57 that holds a cymbal and a tom, the hand notes
    kept are one of a code in [CYMBALS] and one of a code in [TOMS]. *)
Theorem trim_cymbal_tom_pair (fuel : nat) (ns : list (Note A)) :
  (2 <= fuel)%nat -> (2 < distinct_hand_codes ns)%nat ->
  ~ In 38 (map value ns) -> ~ In 49 (map value ns) ->
  ~ In 57 (map value ns) ->
  (exists c, In c (map value ns) /\ In c CYMBALS) ->
  (exists t, In t (map value ns) /\ In t TOMS) ->
  exists c t,
    In c (map value ns) /\ In c CYMBALS /\
    In t (map value ns) /\ In t TOMS /\
    _trim_note_values set_iter fuel ns
    = Some (filter (fun n => (value n =? c) || (value n =? t)
                             || negb (is_hand (value n))) ns).
Proof.
  intros Hfuel Hbig H38 H49 H57 (c0 & Hc0 & Hcc0) (t0 & Ht0 & Htt0).
  rewrite trim_over_cap_eq by assumption.
  apply mem_not_In in H38, H49, H57.
  assert (Hp : priority_codes (map value ns) = [])
    by (unfold priority_codes; now rewrite H38, H49, H57).
  rewrite Hp. destruct fuel as [| fuel]; [lia |].
  rewrite fill_loop_unfold. cbn [length Nat.ltb Nat.leb]. unfold fill_turn.
  destruct (try_append_pick CYMBALS (set_iter (map value ns)) [])
    as (c & Hc & Hcc & _ & Ec).
  { exists c0. split; [now apply set_iter_spec | split; [assumption |]].
    intros []. }
  rewrite Ec. cbn [app length Nat.ltb Nat.leb].
  destruct (try_append_pick TOMS (set_iter (map value ns)) [c])
    as (t & Ht & Htt & _ & Et).
  { exists t0. split; [now apply set_iter_spec | split; [assumption |]].
    intros [E | []]. subst. eapply tables_disjoint; eassumption. }
  rewrite Et. cbn [app]. rewrite fill_loop_unfold. cbn [length Nat.ltb Nat.leb].
  exists c, t.
  split; [now apply set_iter_spec |]. split; [assumption |].
  split; [now apply set_iter_spec |]. split; [assumption |].
  f_equal. apply filter_ext. intros n. simpl.
  rewrite orb_false_r, (Z.eqb_sym (value n) c), (Z.eqb_sym (value n) t).
  reflexivity.
Qed.

(** X21. Cymbals before toms: over the cap, in a beat with the snare 38, a
    cymbal, and neither 49 nor 57, the hand notes kept are the snare and one
    note of a code in [CYMBALS]; every other tom is dropped. *)
Theorem trim_snare_then_cymbal (fuel : nat) (ns : list (Note A)) :
  (2 <= fuel)%nat -> (2 < distinct_hand_codes ns)%nat ->
  In 38 (map value ns) -> ~ In 49 (map value ns) -> ~ In 57 (map value ns) ->
  (exists c, In c (map value ns) /\ In c CYMBALS) ->
  exists c,
    In c (map value ns) /\ In c CYMBALS /\
    _trim_note_values set_iter fuel ns
    = Some (filter (fun n => (value n =? 38) || (value n =? c)
                             || negb (is_hand (value n))) ns).
Proof.
  intros Hfuel Hbig H38 H49 H57 (c0 & Hc0 & Hcc0).
  rewrite trim_over_cap_eq by assumption.
  apply mem_In in H38. apply mem_not_In in H49, H57.
  assert (Hp : priority_codes (map value ns) = [38])
    by (unfold priority_codes; now rewrite H38, H49, H57).
  rewrite Hp. destruct fuel as [| fuel]; [lia |].
  rewrite fill_loop_unfold. cbn [length Nat.ltb Nat.leb]. unfold fill_turn.
  destruct (try_append_pick CYMBALS (set_iter (map value ns)) [38])
    as (c & Hc & Hcc & _ & Ec).
  { exists c0. split; [now apply set_iter_spec | split; [assumption |]].
    intros [E | []]. subst. simpl in Hcc0. lia. }
  rewrite Ec. cbn [app length Nat.ltb Nat.leb]. unfold try_append.
  cbn [andb]. rewrite fill_loop_unfold. cbn [length Nat.ltb Nat.leb].
  exists c. split; [now apply set_iter_spec |]. split; [assumption |].
  f_equal. apply filter_ext. intros n. simpl.
  rewrite orb_false_r, (Z.eqb_sym (value n) c). reflexivity.
Qed.

End TrimOrder.

(** ** The further properties at concrete voices and beats *)

Lemma remove_rests_keeps_total_time_witness :
  (forall t d, tick_fromTime t = Some d -> tick_time d = t) /\
  total_time tick_time
    (remove_rests_from_beats tick_time tick_fromTime
       [mkBeat 480 []; mkBeat 240 [mkNote 38 0 tt]; mkBeat 480 [];
        mkBeat 480 []; mkBeat 960 [mkNote 36 0 tt]; mkBeat 960 []])
  = total_time tick_time
      [mkBeat 480 []; mkBeat 240 [mkNote 38 0 tt]; mkBeat 480 [];
       mkBeat 480 []; mkBeat 960 [mkNote 36 0 tt]; mkBeat 960 []].
Proof.
  split; [exact tick_exact |].
  apply (remove_rests_keeps_total_time unit Z tick_time tick_fromTime).
  exact tick_exact.
Defined.

Lemma remove_rests_leading_silence_witness :
  Forall (fun beat : Beat unit Z => sounding beat = false)
         [mkBeat 480 []; mkBeat 960 []] /\
  remove_rests_from_beats tick_time tick_fromTime
    ([mkBeat 480 []; mkBeat 960 []]
     ++ [mkBeat 960 [mkNote 38 0 tt]; mkBeat 480 []])
  = [mkBeat 480 []; mkBeat 960 []]
    ++ remove_rests_from_beats tick_time tick_fromTime
         [mkBeat 960 [mkNote 38 0 tt]; mkBeat 480 []].
Proof.
  assert (H : Forall (fun beat : Beat unit Z => sounding beat = false)
                     [mkBeat 480 []; mkBeat 960 []])
    by (repeat constructor).
  split; [exact H |].
  apply (remove_rests_leading_silence unit Z tick_time tick_fromTime _ _ H).
Defined.

Lemma remove_rests_sounding_barrier_witness :
  sounding (mkBeat 960 [mkNote 36 0 tt]) = true /\
  remove_rests_from_beats tick_time tick_fromTime
    ([mkBeat 240 [mkNote 38 0 tt]; mkBeat 480 []; mkBeat 480 []]
     ++ mkBeat 960 [mkNote 36 0 tt] :: [mkBeat 960 []])
  = remove_rests_from_beats tick_time tick_fromTime
      [mkBeat 240 [mkNote 38 0 tt]; mkBeat 480 []; mkBeat 480 []]
    ++ remove_rests_from_beats tick_time tick_fromTime
         (mkBeat 960 [mkNote 36 0 tt] :: [mkBeat 960 []]).
Proof.
  split; [reflexivity |].
  apply (remove_rests_sounding_barrier unit Z tick_time tick_fromTime).
  reflexivity.
Defined.

Lemma remove_rests_absorbs_run_witness :
  sounding (mkBeat 480 [mkNote 38 0 tt]) = true /\
  Forall (fun beat : Beat unit Z => sounding beat = false)
         [mkBeat 240 []; mkBeat 240 []; mkBeat 480 []] /\
  extend tick_time tick_fromTime 480
         [mkBeat (A := unit) 240 []; mkBeat 240 []; mkBeat 480 []]
  = Some 1440 /\
  sounding (mkBeat 960 [mkNote 36 0 tt]) = true /\
  (remove_rests_from_beats tick_time tick_fromTime
     (mkBeat 480 [mkNote 38 0 tt]
      :: [mkBeat 240 []; mkBeat 240 []; mkBeat 480 []])
   = [set_duration (mkBeat 480 [mkNote 38 0 tt]) 1440] /\
   remove_rests_from_beats tick_time tick_fromTime
     (mkBeat 480 [mkNote 38 0 tt]
      :: [mkBeat 240 []; mkBeat 240 []; mkBeat 480 []]
         ++ mkBeat 960 [mkNote 36 0 tt] :: [mkBeat 240 []])
   = set_duration (mkBeat 480 [mkNote 38 0 tt]) 1440
     :: remove_rests_from_beats tick_time tick_fromTime
          (mkBeat 960 [mkNote 36 0 tt] :: [mkBeat 240 []])).
Proof.
  assert (H : Forall (fun beat : Beat unit Z => sounding beat = false)
                     [mkBeat 240 []; mkBeat 240 []; mkBeat 480 []])
    by (repeat constructor).
  split; [reflexivity | split; [exact H | split; [reflexivity |
    split; [reflexivity |]]]].
  apply (remove_rests_absorbs_run unit Z tick_time tick_fromTime);
    [reflexivity | exact H | reflexivity | reflexivity].
Defined.

Lemma remove_rests_second_pass_witness :
  sounding (mkBeat 1440 [mkNote 38 0 tt]) = true /\
  sounding (mkBeat (A := unit) 240 []) = false /\
  tick_fromTime (tick_time 1440 + tick_time 240) = None /\
  tick_fromTime (tick_time 240 + tick_time 240) = Some 480 /\
  tick_fromTime (tick_time 1440 + tick_time 480) = Some 1920 /\
  (remove_rests_from_beats tick_time tick_fromTime
     [mkBeat 1440 [mkNote 38 0 tt]; mkBeat 240 []; mkBeat 240 []]
   = [mkBeat 1440 [mkNote 38 0 tt]; set_duration (mkBeat 240 []) 480] /\
   remove_rests_from_beats tick_time tick_fromTime
     (remove_rests_from_beats tick_time tick_fromTime
        [mkBeat 1440 [mkNote 38 0 tt]; mkBeat 240 []; mkBeat 240 []])
   = [set_duration (mkBeat 1440 [mkNote 38 0 tt]) 1920]).
Proof.
  repeat (split; [reflexivity |]).
  apply (remove_rests_second_pass unit Z tick_time tick_fromTime
           (mkBeat 1440 [mkNote 38 0 tt]) (mkBeat 240 []) (mkBeat 240 [])
           480 1920); reflexivity.
Defined.

Lemma remove_rests_without_rests_witness :
  (forall track measure voice beat,
     In track [mkTrack true
                 [mkMeasure [mkVoice [mkBeat 960 [mkNote 38 0 tt];
                                      mkBeat 960 [mkNote 36 0 tt]]]];
               mkTrack false [mkMeasure [mkVoice [mkBeat 480 []]]]] ->
     isPercussionTrack track = true ->
     In measure (measures track) -> In voice (voices measure) ->
     In beat (beats voice) -> sounding beat = true) /\
  remove_rests_from_tracks tick_time tick_fromTime
    [mkTrack true
       [mkMeasure [mkVoice [mkBeat 960 [mkNote 38 0 tt];
                            mkBeat 960 [mkNote 36 0 tt]]]];
     mkTrack false [mkMeasure [mkVoice [mkBeat 480 []]]]]
  = [mkTrack true
       [mkMeasure [mkVoice [mkBeat 960 [mkNote 38 0 tt];
                            mkBeat 960 [mkNote 36 0 tt]]]];
     mkTrack false [mkMeasure [mkVoice [mkBeat 480 []]]]].
Proof.
  assert (H : forall track measure voice beat,
     In track [mkTrack true
                 [mkMeasure [mkVoice [mkBeat 960 [mkNote 38 0 tt];
                                      mkBeat 960 [mkNote 36 0 tt]]]];
               mkTrack false [mkMeasure [mkVoice [mkBeat 480 []]]]] ->
     isPercussionTrack track = true ->
     In measure (measures track) -> In voice (voices measure) ->
     In beat (beats voice) -> sounding beat = true).
  { intros track measure voice beat [<- | [<- | []]] Hp; simpl in Hp;
      [| discriminate].
    intros [<- | []] [<- | []] [<- | [<- | []]]; reflexivity. }
  split; [exact H |].
  apply (remove_rests_without_rests unit Z tick_time tick_fromTime _ H).
Defined.

Lemma place_other_tom_witness :
  In 45 TOMS /\ 45 <> 38 /\
  (string (_place_note (mkNote 45 0 tt) [41; 45]) = 4 <->
   (exists w, In w [41; 45] /\ In w TOMS /\ w < 45) \/ In 38 [41; 45]) /\
  (string (_place_note (mkNote 45 0 tt) [41; 45]) = 3 <->
   ~ ((exists w, In w [41; 45] /\ In w TOMS /\ w < 45) \/ In 38 [41; 45])).
Proof.
  assert (H : In 45 TOMS) by (simpl; intuition).
  split; [exact H | split; [lia |]].
  apply (place_other_tom unit (mkNote 45 0 tt) [41; 45] H). simpl. lia.
Defined.

Lemma place_reads_code_set_witness :
  (forall x, In x [42; 46] <-> In x [46; 42; 42]) /\
  _place_note (mkNote 46 0 tt) [42; 46]
  = _place_note (mkNote 46 0 tt) [46; 42; 42].
Proof.
  assert (H : forall x, In x [42; 46] <-> In x [46; 42; 42])
    by (intros x; simpl; tauto).
  split; [exact H |].
  apply (place_reads_code_set unit (mkNote 46 0 tt) _ _ H).
Defined.

Lemma trim_under_cap_witness :
  set_iter_ok first_seen /\
  (distinct_hand_codes [mkNote 36 0 tt; mkNote 42 0 tt; mkNote 42 1 tt;
                        mkNote 38 0 tt] <= 2)%nat /\
  _trim_note_values first_seen 0
    [mkNote 36 0 tt; mkNote 42 0 tt; mkNote 42 1 tt; mkNote 38 0 tt]
  = Some [mkNote 36 0 tt; mkNote 42 0 tt; mkNote 42 1 tt; mkNote 38 0 tt].
Proof.
  assert (H : (distinct_hand_codes [mkNote 36 0 tt; mkNote 42 0 tt;
                                    mkNote 42 1 tt; mkNote 38 0 tt] <= 2)%nat)
    by (vm_compute; lia).
  split; [exact first_seen_ok | split; [exact H |]].
  apply (trim_under_cap unit first_seen first_seen_ok 0 _ H).
Defined.

Lemma trim_snare_and_crash_first_witness :
  set_iter_ok first_seen /\ (2 <= 2)%nat /\
  (2 < distinct_hand_codes [mkNote 42 0 tt; mkNote 38 0 tt; mkNote 36 0 tt;
                            mkNote 45 0 tt; mkNote 49 0 tt])%nat /\
  In 38 (map value [mkNote 42 0 tt; mkNote 38 0 tt; mkNote 36 0 tt;
                    mkNote 45 0 tt; mkNote 49 0 tt]) /\
  In 49 (map value [mkNote 42 0 tt; mkNote 38 0 tt; mkNote 36 0 tt;
                    mkNote 45 0 tt; mkNote 49 0 tt]) /\
  _trim_note_values first_seen 2
    [mkNote 42 0 tt; mkNote 38 0 tt; mkNote 36 0 tt; mkNote 45 0 tt;
     mkNote 49 0 tt]
  = Some (filter (fun n => (value n =? 38) || (value n =? 49)
                           || negb (is_hand (value n)))
            [mkNote 42 0 tt; mkNote 38 0 tt; mkNote 36 0 tt; mkNote 45 0 tt;
             mkNote 49 0 tt]).
Proof.
  assert (Hb : (2 < distinct_hand_codes [mkNote 42 0 tt; mkNote 38 0 tt;
                                         mkNote 36 0 tt; mkNote 45 0 tt;
                                         mkNote 49 0 tt])%nat)
    by (vm_compute; lia).
  assert (H38 : In 38 (map value [mkNote 42 0 tt; mkNote 38 0 tt;
                                  mkNote 36 0 tt; mkNote 45 0 tt;
                                  mkNote 49 0 tt])) by (simpl; tauto).
  assert (H49 : In 49 (map value [mkNote 42 0 tt; mkNote 38 0 tt;
                                  mkNote 36 0 tt; mkNote 45 0 tt;
                                  mkNote 49 0 tt])) by (simpl; tauto).
  split; [exact first_seen_ok | split; [lia | split; [exact Hb |
    split; [exact H38 | split; [exact H49 |]]]]].
  apply (trim_snare_and_crash_first unit first_seen first_seen_ok 2 _
           (le_n 2) Hb H38 H49).
Defined.

Lemma standardize_keeps_bass_snare_crash_witness :
  set_iter_ok first_seen /\ (2 <= 2)%nat /\
  exists out,
    standardize_notes first_seen 2
      [mkNote 35 0 tt; mkNote 40 0 tt; mkNote 49 0 tt; mkNote 42 0 tt;
       mkNote 45 0 tt] = Some out /\
    ((exists n, In n [mkNote 35 0 tt; mkNote 40 0 tt; mkNote 49 0 tt;
                      mkNote 42 0 tt; mkNote 45 0 tt] /\
                (value n = 35 \/ value n = 36)) ->
     exists m, In m out /\ value m = 36 /\ string m = 5) /\
    ((exists n, In n [mkNote 35 0 tt; mkNote 40 0 tt; mkNote 49 0 tt;
                      mkNote 42 0 tt; mkNote 45 0 tt] /\
                (value n = 38 \/ value n = 40)) ->
     exists m, In m out /\ value m = 38 /\ string m = 3) /\
    ((exists n, In n [mkNote 35 0 tt; mkNote 40 0 tt; mkNote 49 0 tt;
                      mkNote 42 0 tt; mkNote 45 0 tt] /\ value n = 49) ->
     exists m, In m out /\ value m = 49 /\ string m = 1).
Proof.
  split; [exact first_seen_ok | split; [lia |]].
  apply (standardize_keeps_bass_snare_crash unit first_seen first_seen_ok 2).
  lia.
Defined.

Lemma standardize_invents_nothing_witness :
  set_iter_ok first_seen /\ (2 <= 2)%nat /\
  exists out,
    standardize_notes first_seen 2
      [mkNote 35 0 tt; mkNote 36 0 tt; mkNote 45 0 tt; mkNote 47 0 tt;
       mkNote 41 0 tt] = Some out /\
    (forall m, In m out ->
       exists n, In n [mkNote 35 0 tt; mkNote 36 0 tt; mkNote 45 0 tt;
                       mkNote 47 0 tt; mkNote 41 0 tt] /\
                 m = _place_note (_simplify_note n)
                       (first_seen (map value out))) /\
    (length out <= length [mkNote 35 0 tt; mkNote 36 0 tt; mkNote 45 0 tt;
                           mkNote 47 0 tt; mkNote 41 0 tt])%nat /\
    NoDup (map value out) /\
    (forall m, In m out -> value m <> 35 /\ value m <> 40 /\ value m <> 59) /\
    ([mkNote 35 0 tt; mkNote 36 0 tt; mkNote 45 0 tt; mkNote 47 0 tt;
      mkNote 41 0 tt] <> [] -> out <> []).
Proof.
  split; [exact first_seen_ok | split; [lia |]].
  apply (standardize_invents_nothing unit first_seen first_seen_ok 2). lia.
Defined.

Lemma standardize_unknown_code_untouched_witness :
  (2 <= 2)%nat /\ set_iter_ok first_seen /\
  ~ In (value (mkNote 60 2 tt)) HAND_NOTES /\
  value (mkNote 60 2 tt) <> 35 /\ value (mkNote 60 2 tt) <> 36 /\
  (forall n', In n' [mkNote 42 0 tt] ->
              value (_simplify_note n') <> value (mkNote 60 2 tt)) /\
  exists out,
    standardize_notes first_seen 2
      ([mkNote 60 1 tt; mkNote 38 0 tt] ++ mkNote 60 2 tt :: [mkNote 42 0 tt])
    = Some out /\ In (mkNote 60 2 tt) out.
Proof.
  assert (Hh : ~ In (value (mkNote 60 2 tt)) HAND_NOTES)
    by (unfold HAND_NOTES, TOMS, CYMBALS; simpl; intuition discriminate).
  assert (Hl : forall n', In n' [mkNote 42 0 tt] ->
                 value (_simplify_note n') <> value (mkNote 60 2 tt))
    by (intros n' [<- | []]; simpl; lia).
  split; [lia | split; [exact first_seen_ok | split; [exact Hh |
    split; [simpl; lia | split; [simpl; lia | split; [exact Hl |]]]]]].
  apply (standardize_unknown_code_untouched unit first_seen first_seen_ok 2
           _ _ _ (le_n 2) Hh); [simpl; lia | simpl; lia | exact Hl].
Defined.

Lemma standardize_under_cap_witness :
  set_iter_ok first_seen /\
  (distinct_hand_codes
     (dedup_by_value
        (map _simplify_note [mkNote 35 0 tt; mkNote 59 0 tt; mkNote 51 1 tt;
                             mkNote 43 0 tt])) <= 2)%nat /\
  standardize_notes first_seen 0
    [mkNote 35 0 tt; mkNote 59 0 tt; mkNote 51 1 tt; mkNote 43 0 tt]
  = Some (map (fun note =>
                 _place_note note
                   (map value
                      (dedup_by_value
                         (map _simplify_note
                            [mkNote 35 0 tt; mkNote 59 0 tt; mkNote 51 1 tt;
                             mkNote 43 0 tt]))))
              (dedup_by_value
                 (map _simplify_note
                    [mkNote 35 0 tt; mkNote 59 0 tt; mkNote 51 1 tt;
                     mkNote 43 0 tt]))).
Proof.
  assert (H : (distinct_hand_codes
                 (dedup_by_value
                    (map _simplify_note
                       [mkNote 35 0 tt; mkNote 59 0 tt; mkNote 51 1 tt;
                        mkNote 43 0 tt])) <= 2)%nat)
    by (vm_compute; lia).
  split; [exact first_seen_ok | split; [exact H |]].
  apply (standardize_under_cap unit first_seen first_seen_ok 0 _ H).
Defined.

Lemma standardize_keeps_skeleton_witness :
  set_iter_ok first_seen /\ (2 <= 2)%nat /\
  exists tracks',
    standardize_tracks first_seen 2
      [mkTrack true
         [mkMeasure
            [mkVoice [mkBeat 960 [mkNote 42 0 tt; mkNote 46 0 tt;
                                  mkNote 45 0 tt];
                      mkBeat 480 []]]];
       mkTrack false [mkMeasure [mkVoice [mkBeat 480 [mkNote 35 0 tt]]]]]
    = Some tracks' /\
    map isPercussionTrack tracks' = [true; false] /\
    map track_durations tracks' = [[[[960; 480]]]; [[[480]]]] /\
    map track_sounding tracks' = [[[[true; false]]]; [[[true]]]] /\
    (forall i track,
       nth_error
         [mkTrack true
            [mkMeasure
               [mkVoice [mkBeat 960 [mkNote 42 0 tt; mkNote 46 0 tt;
                                     mkNote 45 0 tt];
                         mkBeat 480 []]]];
          mkTrack false [mkMeasure [mkVoice [mkBeat 480 [mkNote 35 0 tt]]]]]
         i = Some track ->
       isPercussionTrack track = false -> nth_error tracks' i = Some track).
Proof.
  split; [exact first_seen_ok | split; [lia |]].
  apply (standardize_keeps_skeleton unit Z first_seen first_seen_ok 2). lia.
Defined.

Lemma trim_ends_within_two_turns_witness :
  set_iter_ok first_seen /\ (2 <= 5)%nat /\
  exists ns2,
    _trim_note_values first_seen 2
      [mkNote 45 0 tt; mkNote 47 0 tt; mkNote 41 0 tt] = Some ns2 /\
    _trim_note_values first_seen 5
      [mkNote 45 0 tt; mkNote 47 0 tt; mkNote 41 0 tt] = Some ns2.
Proof.
  split; [exact first_seen_ok | split; [lia |]].
  apply (trim_ends_within_two_turns unit first_seen first_seen_ok 5). lia.
Defined.

Lemma trim_cymbal_tom_pair_witness :
  set_iter_ok first_seen /\ (2 <= 2)%nat /\
  (2 < distinct_hand_codes [mkNote 45 0 tt; mkNote 42 0 tt; mkNote 47 0 tt;
                            mkNote 36 0 tt])%nat /\
  ~ In 38 (map value [mkNote 45 0 tt; mkNote 42 0 tt; mkNote 47 0 tt;
                      mkNote 36 0 tt]) /\
  ~ In 49 (map value [mkNote 45 0 tt; mkNote 42 0 tt; mkNote 47 0 tt;
                      mkNote 36 0 tt]) /\
  ~ In 57 (map value [mkNote 45 0 tt; mkNote 42 0 tt; mkNote 47 0 tt;
                      mkNote 36 0 tt]) /\
  (exists c, In c (map value [mkNote 45 0 tt; mkNote 42 0 tt; mkNote 47 0 tt;
                              mkNote 36 0 tt]) /\ In c CYMBALS) /\
  (exists t, In t (map value [mkNote 45 0 tt; mkNote 42 0 tt; mkNote 47 0 tt;
                              mkNote 36 0 tt]) /\ In t TOMS) /\
  exists c t,
    In c (map value [mkNote 45 0 tt; mkNote 42 0 tt; mkNote 47 0 tt;
                     mkNote 36 0 tt]) /\ In c CYMBALS /\
    In t (map value [mkNote 45 0 tt; mkNote 42 0 tt; mkNote 47 0 tt;
                     mkNote 36 0 tt]) /\ In t TOMS /\
    _trim_note_values first_seen 2
      [mkNote 45 0 tt; mkNote 42 0 tt; mkNote 47 0 tt; mkNote 36 0 tt]
    = Some (filter (fun n => (value n =? c) || (value n =? t)
                             || negb (is_hand (value n)))
              [mkNote 45 0 tt; mkNote 42 0 tt; mkNote 47 0 tt; mkNote 36 0 tt]).
Proof.
  assert (Hb : (2 < distinct_hand_codes [mkNote 45 0 tt; mkNote 42 0 tt;
                                         mkNote 47 0 tt; mkNote 36 0 tt])%nat)
    by (vm_compute; lia).
  assert (H38 : ~ In 38 (map value [mkNote 45 0 tt; mkNote 42 0 tt;
                                    mkNote 47 0 tt; mkNote 36 0 tt]))
    by (simpl; lia).
  assert (H49 : ~ In 49 (map value [mkNote 45 0 tt; mkNote 42 0 tt;
                                    mkNote 47 0 tt; mkNote 36 0 tt]))
    by (simpl; lia).
  assert (H57 : ~ In 57 (map value [mkNote 45 0 tt; mkNote 42 0 tt;
                                    mkNote 47 0 tt; mkNote 36 0 tt]))
    by (simpl; lia).
  assert (Hc : exists c, In c (map value [mkNote 45 0 tt; mkNote 42 0 tt;
                                          mkNote 47 0 tt; mkNote 36 0 tt])
                         /\ In c CYMBALS)
    by (exists 42; simpl; intuition).
  assert (Ht : exists t, In t (map value [mkNote 45 0 tt; mkNote 42 0 tt;
                                          mkNote 47 0 tt; mkNote 36 0 tt])
                         /\ In t TOMS)
    by (exists 45; simpl; intuition).
  split; [exact first_seen_ok | split; [lia | split; [exact Hb |
    split; [exact H38 | split; [exact H49 | split; [exact H57 |
    split; [exact Hc | split; [exact Ht |]]]]]]]].
  apply (trim_cymbal_tom_pair unit first_seen first_seen_ok 2 _
           (le_n 2) Hb H38 H49 H57 Hc Ht).
Defined.

Lemma trim_snare_then_cymbal_witness :
  set_iter_ok first_seen /\ (2 <= 2)%nat /\
  (2 < distinct_hand_codes [mkNote 45 0 tt; mkNote 38 0 tt; mkNote 46 0 tt])%nat /\
  In 38 (map value [mkNote 45 0 tt; mkNote 38 0 tt; mkNote 46 0 tt]) /\
  ~ In 49 (map value [mkNote 45 0 tt; mkNote 38 0 tt; mkNote 46 0 tt]) /\
  ~ In 57 (map value [mkNote 45 0 tt; mkNote 38 0 tt; mkNote 46 0 tt]) /\
  (exists c, In c (map value [mkNote 45 0 tt; mkNote 38 0 tt; mkNote 46 0 tt])
             /\ In c CYMBALS) /\
  exists c,
    In c (map value [mkNote 45 0 tt; mkNote 38 0 tt; mkNote 46 0 tt]) /\
    In c CYMBALS /\
    _trim_note_values first_seen 2
      [mkNote 45 0 tt; mkNote 38 0 tt; mkNote 46 0 tt]
    = Some (filter (fun n => (value n =? 38) || (value n =? c)
                             || negb (is_hand (value n)))
              [mkNote 45 0 tt; mkNote 38 0 tt; mkNote 46 0 tt]).
Proof.
  assert (Hb : (2 < distinct_hand_codes [mkNote 45 0 tt; mkNote 38 0 tt;
                                         mkNote 46 0 tt])%nat)
    by (vm_compute; lia).
  assert (H38 : In 38 (map value [mkNote 45 0 tt; mkNote 38 0 tt;
                                  mkNote 46 0 tt])) by (simpl; tauto).
  assert (H49 : ~ In 49 (map value [mkNote 45 0 tt; mkNote 38 0 tt;
                                    mkNote 46 0 tt])) by (simpl; lia).
  assert (H57 : ~ In 57 (map value [mkNote 45 0 tt; mkNote 38 0 tt;
                                    mkNote 46 0 tt])) by (simpl; lia).
  assert (Hc : exists c, In c (map value [mkNote 45 0 tt; mkNote 38 0 tt;
                                          mkNote 46 0 tt]) /\ In c CYMBALS)
    by (exists 46; simpl; intuition).
  split; [exact first_seen_ok | split; [lia | split; [exact Hb |
    split; [exact H38 | split; [exact H49 | split; [exact H57 |
    split; [exact Hc |]]]]]]].
  apply (trim_snare_then_cymbal unit first_seen first_seen_ok 2 _
           (le_n 2) Hb H38 H49 H57 Hc).
Defined.

Lemma trim_two_hand_notes_witness :
  set_iter_ok first_seen /\ (2 <= 2)%nat /\
  NoDup (map value [mkNote 49 0 tt; mkNote 57 0 tt; mkNote 45 0 tt;
                    mkNote 36 0 tt]) /\
  (2 < distinct_hand_codes [mkNote 49 0 tt; mkNote 57 0 tt; mkNote 45 0 tt;
                            mkNote 36 0 tt])%nat /\
  (In 57 (map value [mkNote 49 0 tt; mkNote 57 0 tt; mkNote 45 0 tt;
                     mkNote 36 0 tt]) ->
   In 49 (map value [mkNote 49 0 tt; mkNote 57 0 tt; mkNote 45 0 tt;
                     mkNote 36 0 tt])) /\
  exists ns2,
    _trim_note_values first_seen 2
      [mkNote 49 0 tt; mkNote 57 0 tt; mkNote 45 0 tt; mkNote 36 0 tt]
    = Some ns2 /\
    hand_count ns2 = 2%nat /\
    (forall n, In n ns2 ->
               In n [mkNote 49 0 tt; mkNote 57 0 tt; mkNote 45 0 tt;
                     mkNote 36 0 tt]).
Proof.
  assert (Hnd : NoDup (map value [mkNote 49 0 tt; mkNote 57 0 tt;
                                  mkNote 45 0 tt; mkNote 36 0 tt]))
    by (simpl; nodup_list).
  assert (Hb : (2 < distinct_hand_codes [mkNote 49 0 tt; mkNote 57 0 tt;
                                         mkNote 45 0 tt; mkNote 36 0 tt])%nat)
    by (vm_compute; lia).
  assert (H57 : In 57 (map value [mkNote 49 0 tt; mkNote 57 0 tt;
                                  mkNote 45 0 tt; mkNote 36 0 tt]) ->
                In 49 (map value [mkNote 49 0 tt; mkNote 57 0 tt;
                                  mkNote 45 0 tt; mkNote 36 0 tt]))
    by (intros _; simpl; tauto).
  split; [exact first_seen_ok | split; [lia | split; [exact Hnd |
    split; [exact Hb | split; [exact H57 |]]]]].
  apply (trim_two_hand_notes first_seen 2 _ first_seen_ok (le_n 2) Hnd Hb H57).
Defined.

(** ** The pedal hi-hat among the cymbals *)

(** C2. Snare, crash cymbal and pedal hi-hat on one beat are two notes for
    the hands and one for the foot.  [CYMBALS] lists 44, so the trim counts
    three hand codes, keeps 38 and 49, and drops the pedal hi-hat, whatever
    the iteration order. *)
Theorem trim_snare_crash_pedal_hihat (A : Type) (set_iter : list Z -> list Z)
  (fuel : nat) (s1 s2 s3 : Z) (a1 a2 a3 : A) :
  set_iter_ok set_iter -> (2 <= fuel)%nat ->
  In 44 HAND_NOTES /\
  _trim_note_values set_iter fuel
    [mkNote 38 s1 a1; mkNote 49 s2 a2; mkNote 44 s3 a3]
  = Some [mkNote 38 s1 a1; mkNote 49 s2 a2].
Proof.
  intros Hok Hfuel. split; [apply mem_In; reflexivity |].
  set (ns := [mkNote 38 s1 a1; mkNote 49 s2 a2; mkNote 44 s3 a3]).
  assert (Hbig : (2 < length (filter is_hand (set_iter (map value ns))))%nat).
  { rewrite (iter_hand_codes set_iter ns Hok). unfold distinct_hand_codes.
    simpl. lia. }
  destruct (trim_over_cap A set_iter Hok fuel ns Hfuel Hbig)
    as (r & Heq & Hnd & Hlen & _ & Hr38 & Hr49).
  assert (Hr : forall y, In y r <-> y = 38 \/ y = 49).
  { apply two_element_set; try assumption; try lia.
    - apply Hr38. simpl. tauto.
    - apply Hr49. simpl. tauto. }
  assert (M38 : mem 38 r = true) by (apply mem_In, Hr; tauto).
  assert (M49 : mem 49 r = true) by (apply mem_In, Hr; tauto).
  assert (M44 : mem 44 r = false)
    by (apply mem_not_In; intros H; apply Hr in H; lia).
  rewrite Heq. unfold ns. cbn [filter value].
  rewrite M38, M49, M44. reflexivity.
Qed.

(** C4. Pedal hi-hat and open hi-hat on one beat: 44 goes to string 6, but
    the test "another cymbal occupies string 1" finds it, a code of
    [CYMBALS] below 46, and puts the open hi-hat on string 2 with string 1
    left empty; the beat has no cymbal other than the pedal hi-hat below 46
    and no 49. *)
Theorem pedal_hihat_counts_as_cymbal (A : Type) (set_iter : list Z -> list Z)
  (fuel : nat) (s1 s2 : Z) (a1 a2 : A) :
  set_iter_ok set_iter -> (2 <= fuel)%nat ->
  standardize_notes set_iter fuel [mkNote 44 s1 a1; mkNote 46 s2 a2]
  = Some [mkNote 44 6 a1; mkNote 46 2 a2] /\
  second_cymbal_as_specified 46 [44; 46] = false.
Proof.
  intros Hok Hfuel. split; [| reflexivity].
  set (ns := [mkNote 44 s1 a1; mkNote 46 s2 a2]).
  assert (Hstd : standard ns).
  { split; [simpl; nodup_list |]. split; [unfold hand_count; simpl; lia |].
    intros n [<- | [<- | []]]; simpl; lia. }
  rewrite (standardize_standard A set_iter Hok fuel ns Hfuel Hstd).
  assert (C : cymbal_on_string_1 46 (set_iter (map value ns)) = true).
  { apply cymbal_on_string_1_iff. exists 44. split.
    - apply Hok. simpl. tauto.
    - split; [simpl; tauto | lia]. }
  unfold ns at 2. cbn [map]. unfold _place_note. cbn [value].
  rewrite C. reflexivity.
Qed.

Lemma trim_snare_crash_pedal_hihat_witness :
  set_iter_ok first_seen /\ (2 <= 2)%nat /\
  (In 44 HAND_NOTES /\
   _trim_note_values first_seen 2
     [mkNote 38 3 tt; mkNote 49 1 tt; mkNote 44 6 tt]
   = Some [mkNote 38 3 tt; mkNote 49 1 tt]).
Proof.
  split; [exact first_seen_ok | split; [lia |]].
  apply (trim_snare_crash_pedal_hihat unit first_seen 2 3 1 6 tt tt tt
           first_seen_ok).
  lia.
Defined.

Lemma pedal_hihat_counts_as_cymbal_witness :
  set_iter_ok first_seen /\ (2 <= 2)%nat /\
  (standardize_notes first_seen 2 [mkNote 44 0 tt; mkNote 46 0 tt]
   = Some [mkNote 44 6 tt; mkNote 46 2 tt] /\
   second_cymbal_as_specified 46 [44; 46] = false).
Proof.
  split; [exact first_seen_ok | split; [lia |]].
  apply (pedal_hihat_counts_as_cymbal unit first_seen 2 0 0 tt tt
           first_seen_ok).
  lia.
Defined.

(** ** A failed merge, in the output of the pass *)

Section FailedMerge.

Variables A D : Type.
Variable time : D -> Z.
Variable fromTime : Z -> option D.

(** The beat at the bottom of the accumulator stays there; only its
    duration may change. *)
Lemma fold_bottom (post : list (Beat A D)) (b : Beat A D) :
  forall (top : list (Beat A D)) (d' : D),
  exists top' d'',
    fst (fold_left (merge_step time fromTime) post
                   (top ++ [set_duration b d'], true))
    = top' ++ [set_duration b d''].
Proof.
  induction post as [| beat post IH]; intros top d'; simpl.
  - now exists top, d'.
  - unfold merge_step at 2. simpl.
    destruct (sounding beat); [apply (IH (beat :: top)) |].
    destruct top as [| h top0]; simpl.
    + destruct (fromTime (time d' + time (duration beat))) as [d2 |].
      * apply (IH [] d2).
      * apply (IH [beat] d').
    + destruct (fromTime (time (duration h) + time (duration beat)))
        as [d2 |].
      * apply (IH (set_duration h d2 :: top0) d').
      * apply (IH (beat :: h :: top0) d').
Qed.

(** From a sounding beat to a silent beat that cannot be merged into it. *)
Lemma run_to_failed_merge (rs0 post : list (Beat A D)) (s r : Beat A D)
  (d0 : D) :
  sounding s = true ->
  Forall (fun beat => sounding beat = false) rs0 ->
  extend time fromTime (duration s) rs0 = Some d0 ->
  sounding r = false ->
  fromTime (time d0 + time (duration r)) = None ->
  remove_rests_from_beats time fromTime (s :: rs0 ++ r :: post)
  = set_duration s d0
    :: rev (fst (fold_left (merge_step time fromTime) post ([r], true))).
Proof.
  intros Hs Hrs0 Hd0 Hr Hfail.
  rewrite remove_rests_as_fold. unfold merge_rests. simpl.
  unfold merge_step at 2. rewrite Hs. simpl.
  rewrite fold_left_app, (fold_extend A D time fromTime rs0 s d0 [] Hrs0 Hd0).
  simpl. unfold merge_step at 2. rewrite Hr. simpl. rewrite Hfail.
  assert (Hok : acc_ok ([r], true)) by (unfold acc_ok; simpl; discriminate).
  pose proof (fold_base A D time fromTime post [r] [set_duration s d0] true Hok)
    as Hbase.
  simpl in Hbase. rewrite Hbase. simpl. now rewrite rev_app_distr.
Qed.

(** A kept silent beat, the silent beats merged into it, and the rest of
    the voice from its next sounding beat. *)
Lemma run_from_kept_rest (rs tail : list (Beat A D)) (r : Beat A D) (d : D) :
  Forall (fun beat => sounding beat = false) rs ->
  extend time fromTime (duration r) rs = Some d ->
  tail = [] \/ (exists t tl, tail = t :: tl /\ sounding t = true) ->
  rev (fst (fold_left (merge_step time fromTime) (rs ++ tail) ([r], true)))
  = set_duration r d :: remove_rests_from_beats time fromTime tail.
Proof.
  intros Hrs Hd Htail.
  rewrite fold_left_app, (fold_extend A D time fromTime rs r d [] Hrs Hd).
  destruct Htail as [-> | (t & tl & -> & Ht)].
  - reflexivity.
  - rewrite remove_rests_as_fold. unfold merge_rests. simpl.
    unfold merge_step at 2 4. rewrite Ht. simpl.
    assert (Hok : acc_ok ([t], true)) by (unfold acc_ok; simpl; discriminate).
    pose proof (fold_base A D time fromTime tl [t] [set_duration r d] true Hok)
      as Hbase.
    simpl in Hbase. rewrite Hbase. simpl. now rewrite rev_app_distr.
Qed.

(** C8. A sounding beat [s] has absorbed the silent beats [rs0] and has
    duration [d0]; the next silent beat [r] cannot be merged into it.  In the
    output of the pass the sounding beat keeps duration [d0] and [r] follows
    it: unchanged when the voice ends there or goes on with a sounding beat;
    with the silent beats [rs] that follow merged into it, when their sums
    canonicalize; and, whatever follows, as a beat of the same (empty) notes
    right after the sounding beat.  The pass returns its output in each
    case. *)
Theorem failed_merge_rest_in_output (pre rs0 rs tail post : list (Beat A D))
  (s r : Beat A D) (d0 d : D) :
  sounding s = true ->
  Forall (fun beat => sounding beat = false) rs0 ->
  extend time fromTime (duration s) rs0 = Some d0 ->
  sounding r = false ->
  fromTime (time d0 + time (duration r)) = None ->
  Forall (fun beat => sounding beat = false) rs ->
  extend time fromTime (duration r) rs = Some d ->
  tail = [] \/ (exists t tl, tail = t :: tl /\ sounding t = true) ->
  remove_rests_from_beats time fromTime (pre ++ s :: rs0 ++ r :: tail)
  = remove_rests_from_beats time fromTime pre
    ++ set_duration s d0 :: r :: remove_rests_from_beats time fromTime tail /\
  remove_rests_from_beats time fromTime (pre ++ s :: rs0 ++ r :: rs ++ tail)
  = remove_rests_from_beats time fromTime pre
    ++ set_duration s d0 :: set_duration r d
       :: remove_rests_from_beats time fromTime tail /\
  exists d' rest,
    remove_rests_from_beats time fromTime (pre ++ s :: rs0 ++ r :: post)
    = remove_rests_from_beats time fromTime pre
      ++ set_duration s d0 :: set_duration r d' :: rest.
Proof.
  intros Hs Hrs0 Hd0 Hr Hfail Hrs Hd Htail.
  split; [| split].
  - rewrite (remove_rests_split A D time fromTime pre _ s Hs).
    rewrite (run_to_failed_merge rs0 tail s r d0 Hs Hrs0 Hd0 Hr Hfail).
    pose proof (run_from_kept_rest [] tail r (duration r)
                  (Forall_nil _) eq_refl Htail) as Hkept.
    simpl in Hkept. rewrite Hkept.
    now destruct r.
  - rewrite (remove_rests_split A D time fromTime pre _ s Hs).
    rewrite (run_to_failed_merge rs0 (rs ++ tail) s r d0 Hs Hrs0 Hd0 Hr Hfail).
    now rewrite (run_from_kept_rest rs tail r d Hrs Hd Htail).
  - rewrite (remove_rests_split A D time fromTime pre _ s Hs).
    rewrite (run_to_failed_merge rs0 post s r d0 Hs Hrs0 Hd0 Hr Hfail).
    destruct (fold_bottom post r [] (duration r)) as (top & d' & Hb).
    assert (Er : set_duration r (duration r) = r) by now destruct r.
    simpl in Hb. rewrite Er in Hb. rewrite Hb.
    exists d', (rev top). f_equal. f_equal.
    now rewrite rev_app_distr.
Qed.

End FailedMerge.

Lemma failed_merge_rest_in_output_witness :
  sounding (mkBeat 240 [mkNote 38 0 tt]) = true /\
  Forall (fun beat : Beat unit Z => sounding beat = false) [mkBeat 480 []] /\
  extend tick_time tick_fromTime 240 [mkBeat (A := unit) 480 []] = Some 720 /\
  sounding (mkBeat (A := unit) 480 []) = false /\
  tick_fromTime (tick_time 720 + tick_time 480) = None /\
  Forall (fun beat : Beat unit Z => sounding beat = false) [mkBeat 480 []] /\
  extend tick_time tick_fromTime 480 [mkBeat (A := unit) 480 []] = Some 960 /\
  ([mkBeat 960 [mkNote 36 0 tt]] = []
   \/ (exists t tl, [mkBeat 960 [mkNote 36 0 tt]] = t :: tl
                    /\ sounding t = true)) /\
  (remove_rests_from_beats tick_time tick_fromTime
     ([mkBeat 960 []] ++ mkBeat 240 [mkNote 38 0 tt] :: [mkBeat 480 []]
      ++ mkBeat 480 [] :: [mkBeat 960 [mkNote 36 0 tt]])
   = remove_rests_from_beats tick_time tick_fromTime [mkBeat 960 []]
     ++ set_duration (mkBeat 240 [mkNote 38 0 tt]) 720 :: mkBeat 480 []
        :: remove_rests_from_beats tick_time tick_fromTime
             [mkBeat 960 [mkNote 36 0 tt]] /\
   remove_rests_from_beats tick_time tick_fromTime
     ([mkBeat 960 []] ++ mkBeat 240 [mkNote 38 0 tt] :: [mkBeat 480 []]
      ++ mkBeat 480 [] :: [mkBeat 480 []] ++ [mkBeat 960 [mkNote 36 0 tt]])
   = remove_rests_from_beats tick_time tick_fromTime [mkBeat 960 []]
     ++ set_duration (mkBeat 240 [mkNote 38 0 tt]) 720
        :: set_duration (mkBeat 480 []) 960
        :: remove_rests_from_beats tick_time tick_fromTime
             [mkBeat 960 [mkNote 36 0 tt]] /\
   exists d' rest,
     remove_rests_from_beats tick_time tick_fromTime
       ([mkBeat 960 []] ++ mkBeat 240 [mkNote 38 0 tt] :: [mkBeat 480 []]
        ++ mkBeat 480 [] :: [mkBeat 240 []; mkBeat 960 []])
     = remove_rests_from_beats tick_time tick_fromTime [mkBeat 960 []]
       ++ set_duration (mkBeat 240 [mkNote 38 0 tt]) 720
          :: set_duration (mkBeat 480 []) d' :: rest).
Proof.
  assert (Hrs : Forall (fun beat : Beat unit Z => sounding beat = false)
                       [mkBeat 480 []]) by (repeat constructor).
  assert (Ht : [mkBeat (A := unit) (D := Z) 960 [mkNote 36 0 tt]] = []
               \/ (exists t tl, [mkBeat 960 [mkNote 36 0 tt]] = t :: tl
                                /\ sounding t = true)).
  { right. exists (mkBeat 960 [mkNote 36 0 tt]), []. split; reflexivity. }
  split; [reflexivity | split; [exact Hrs | split; [reflexivity |
    split; [reflexivity | split; [reflexivity | split; [exact Hrs |
    split; [reflexivity | split; [exact Ht |]]]]]]]].
  apply (failed_merge_rest_in_output unit Z tick_time tick_fromTime
           [mkBeat 960 []] [mkBeat 480 []] [mkBeat 480 []]
           [mkBeat 960 [mkNote 36 0 tt]] [mkBeat 240 []; mkBeat 960 []]
           (mkBeat 240 [mkNote 38 0 tt]) (mkBeat 480 []) 720 960);
    try reflexivity; assumption.
Defined.
